(** * btnmasher/util: the chunker, the concurrent string map and the buffer pool

    A shallow embedding of [strings.go] (ChunkJoinStrings, ConcurrentMapString)
    and of the buffer pool file (BufferPool), with the properties of the
    specification stated over it.

    Conventions of the embedding:
    - a Go [string] is a sequence of bytes: [String.string];
    - a Go [int] is modelled by [Z]; the only arithmetic of the code adds
      lengths of strings held in memory, which stays far from 2^63;
    - a [bytes.Buffer] is its content; a [*bytes.Buffer] is an address in an
      explicit heap, so that aliasing between a caller and the pool is visible;
    - [map[string]string] is [gmap string string];
    - a Go [error] is [option Error], [None] being [nil];
    - a [select] with a [default] arm never blocks: it is a total function that
      picks the channel arm when the channel operation can proceed. *)

From Stdlib Require Import ZArith Lia List Bool.
From stdpp Require Import base gmap strings list fin_maps.

Local Open Scope Z_scope.

(* ===================================================================== *)
(** ** The chunker: [ChunkJoinStrings]                                    *)
(* ===================================================================== *)

Module Chunker.

(** [len(s)] of Go: the number of bytes of [s], as an [int]. *)
Definition len (s : string) : Z := Z.of_nat (String.length s).

(** The local variables of [ChunkJoinStrings] that live across iterations:
    [buffer] (the content of the [bytes.Buffer]), [currlen] and [joined].
    [iterate] is always [false] at the top of an iteration, so it is local to
    the loop body. *)
Record Locals := mkLocals {
  buffer : string;
  currlen : Z;
  joined : list string
}.

(** One iteration of [for i, param := range params], with [n = len(params)]. *)
Definition body (n maxlength : Z) (sep : string) (i : Z) (param : string)
    (st : Locals) : Locals :=
  (* if currlen+len(param) < maxlength { write; currlen += len(param) }
     else { iterate = true } *)
  let '(buffer1, currlen1, iterate1) :=
    if currlen st + len param <? maxlength
    then (String.append (buffer st) param, currlen st + len param, false)
    else (buffer st, currlen st, true) in
  (* if i+1 < len(params) && currlen+len(sep) < maxlength { write sep; currlen++ }
     else { iterate = true } *)
  let '(buffer2, currlen2, iterate2) :=
    if (i + 1 <? n) && (currlen1 + len sep <? maxlength)
    then (String.append buffer1 sep, currlen1 + 1, iterate1)
    else (buffer1, currlen1, true) in
  (* if iterate { currlen = 0; joined = append(joined, buffer.String());
                  buffer.Reset() } *)
  if iterate2
  then mkLocals EmptyString 0 (joined st ++ [buffer2])
  else mkLocals buffer2 currlen2 (joined st).

(** The [range] loop from index [i] on. *)
Fixpoint loop (n maxlength : Z) (sep : string) (i : Z) (params : list string)
    (st : Locals) : Locals :=
  match params with
  | [] => st
  | param :: rest =>
      loop n maxlength sep (i + 1) rest (body n maxlength sep i param st)
  end.

Definition ChunkJoinStrings (params : list string) (maxlength : Z)
    (sep : string) : list string :=
  let st := loop (Z.of_nat (length params)) maxlength sep 0 params
                 (mkLocals EmptyString 0 []) in
  (* if buffer.Len() > 0 { joined = append(joined, buffer.String()) } *)
  if 0 <? len (buffer st) then joined st ++ [buffer st] else joined st.

(** [contains hay needle]: [needle] occurs in [hay] as a contiguous run of
    bytes (Go's [strings.Contains]); used to look for a token in a chunk. *)
Fixpoint contains (hay needle : string) : bool :=
  String.prefix needle hay ||
  match hay with
  | EmptyString => false
  | String _ hay' => contains hay' needle
  end.

(** What [currlen] reaches when every token and separator of [params] goes to
    one chunk: the bytes of the tokens, and one for each separator between two
    tokens, whatever the length of the separator ([currlen++]). *)
Fixpoint counted (params : list string) : Z :=
  match params with
  | [] => 0
  | param :: rest =>
      match rest with
      | [] => len param
      | _ :: _ => len param + 1 + counted rest
      end
  end.

(** The loop invariant behind the bound on chunk lengths: [currlen] is at
    least the length of the buffer, the buffer is shorter than [maxlength],
    and so is every chunk closed so far. *)
Definition within_bound (maxlength : Z) (st : Locals) : Prop :=
  len (buffer st) <= currlen st /\
  len (buffer st) < maxlength /\
  Forall (fun c => len c < maxlength) (joined st).

End Chunker.

(* ===================================================================== *)
(** ** The string map: [ConcurrentMapString]                              *)
(* ===================================================================== *)

Module ConcurrentMap.

(** The value built by [fmt.Errorf(format, key)]: the format string of the
    call site and the key it quotes. *)
Record Error := Errorf {
  format : string;
  arg : string
}.

(** The two kinds of error of the specification. *)
Inductive ErrorKind := AlreadyExists | NotFound.

(** The format strings of the four call sites of [fmt.Errorf]. *)
Definition add_exists : string :=
  "ConcurrentMapString: Cannot add map entry, key already exists: %q".
Definition del_missing : string :=
  "ConcurrentMapString: Cannot delete map entry, key does not exist: %q".
Definition get_missing : string :=
  "ConcurrentMapString: Cannot get map value, key does not exist: %q".
Definition set_missing : string :=
  "ConcurrentMapString: Cannot set map value, key does not exist: %q".

(** The kind of a returned error, read off its message; [None] for [nil]. *)
Definition kind (e : option Error) : option ErrorKind :=
  match e with
  | None => None
  | Some err =>
      if String.eqb (format err) add_exists then Some AlreadyExists
      else if String.eqb (format err) del_missing
              || String.eqb (format err) get_missing
              || String.eqb (format err) set_missing then Some NotFound
      else None
  end.

(** [struct { data map[string]string; sync.RWMutex }]. Every method runs its
    whole body between [Lock]/[RLock] and the deferred unlock, so a method is
    one atomic transition on [data]; the lock itself carries no state between
    calls and is not a field here. *)
Record ConcurrentMapString := mkMap {
  data : gmap string string
}.

Definition NewConcurrentMapString : ConcurrentMapString := mkMap ∅.

Definition Length (m : ConcurrentMapString) : Z := Z.of_nat (size (data m)).

Definition Add (key value : string) (m : ConcurrentMapString)
    : option Error * ConcurrentMapString :=
  match data m !! key with
  | Some _ => (Some (Errorf add_exists key), m)
  | None => (None, mkMap (<[key := value]> (data m)))
  end.

Definition Del (key : string) (m : ConcurrentMapString)
    : option Error * ConcurrentMapString :=
  match data m !! key with
  | None => (Some (Errorf del_missing key), m)
  | Some _ => (None, mkMap (delete key (data m)))
  end.

(** [Get] only reads: it returns the value and the error, the map is as it was. *)
Definition Get (key : string) (m : ConcurrentMapString) : string * option Error :=
  match data m !! key with
  | None => (EmptyString, Some (Errorf get_missing key))
  | Some v => (v, None)
  end.

Definition Set_ (key value : string) (m : ConcurrentMapString)
    : option Error * ConcurrentMapString :=
  match data m !! key with
  | None => (Some (Errorf set_missing key), m)
  | Some _ => (None, mkMap (<[key := value]> (data m)))
  end.

Definition Exists (key : string) (m : ConcurrentMapString) : bool :=
  match data m !! key with
  | Some _ => true
  | None => false
  end.

(** A sequence of [Add] calls run one after the other, with the errors they
    return: what any schedule of the calls amounts to once the lock has put
    them in some order. *)
Fixpoint AddAll (kvs : list (string * string)) (m : ConcurrentMapString)
    : list (option Error) * ConcurrentMapString :=
  match kvs with
  | [] => ([], m)
  | (k, v) :: rest =>
      let '(e, m1) := Add k v m in
      let '(es, m2) := AddAll rest m1 in
      (e :: es, m2)
  end.

(** [for key, val := range m.data { do(key, val) }], under the read lock.
    Go leaves the order of a [range] over a map unspecified, so a run of
    [ForEach] is a relation: the callback, which acts on a state [S] of the
    caller, is applied to the entries in some order [order], any arrangement
    of the entries of the map; [s'] is the state after the last call. *)
Definition ForEach_calls {S : Type} (do : string -> string -> S -> S)
    (order : list (string * string)) (s : S) : S :=
  fold_left (fun acc kv => do (fst kv) (snd kv) acc) order s.

Definition ForEach {S : Type} (m : ConcurrentMapString)
    (do : string -> string -> S -> S) (s s' : S) : Prop :=
  exists order : list (string * string),
    order ≡ₚ map_to_list (data m) /\ s' = ForEach_calls do order s.

End ConcurrentMap.

(* ===================================================================== *)
(** ** The buffer pool: [BufferPool]                                      *)
(* ===================================================================== *)

Module Pool.

(** A [*bytes.Buffer] is an address. *)
Abbreviation ptr := nat (only parsing).

(** The memory holding the [bytes.Buffer] objects: the content of every
    allocated buffer, and the next free address. *)
Record Memory := mkMemory {
  store : gmap nat string;
  next : nat
}.

(** A buffered channel of [*bytes.Buffer]: the queued addresses, oldest first,
    and the capacity given to [make]. *)
Record chan := mkChan {
  queue : list nat;
  capacity : nat
}.

Record BufferPool := mkPool {
  Buffers : chan
}.

(** The pool and the memory its buffers live in. *)
Record World := mkWorld {
  mem : Memory;
  pool : BufferPool
}.

(** [&bytes.Buffer{}]: a new, empty buffer at a new address. *)
Definition alloc (m : Memory) : nat * Memory :=
  (next m, mkMemory (<[next m := EmptyString]> (store m)) (S (next m))).

(** [buf.Reset()]: the buffer at [buf] becomes empty. *)
Definition Reset (buf : ptr) (m : Memory) : Memory :=
  mkMemory (alter (fun _ => EmptyString) buf (store m)) (next m).

(** [buf.WriteString(s)], done by whoever holds the address [buf]. *)
Definition WriteString (buf : ptr) (s : string) (m : Memory) : Memory :=
  mkMemory (alter (fun c => String.append c s) buf (store m)) (next m).

(** [case c <- p:] of a [select] with a [default]: the send proceeds exactly
    when the channel has room, and the [default] arm is taken otherwise
    ([None]). No receiver ever waits on the channel, since [New] receives
    under a [select] with a [default] too. *)
Definition try_send (c : chan) (p : ptr) : option chan :=
  if (length (queue c) <? capacity c)%nat
  then Some (mkChan (queue c ++ [p]) (capacity c))
  else None.

(** [case p = <-c:] of a [select] with a [default]. *)
Definition try_recv (c : chan) : option (nat * chan) :=
  match queue c with
  | p :: q => Some (p, mkChan q (capacity c))
  | [] => None
  end.

(** [make(chan *bytes.Buffer, max)] panics when [max] is negative: [None]. *)
Definition NewBufferPool (max : Z) : option BufferPool :=
  if max <? 0 then None
  else Some (mkPool (mkChan [] (Z.to_nat max))).

(** The loop of [Warmup] with [n] iterations left. The new buffer is allocated
    before the [select] looks at the channel; on [default] the method returns. *)
Fixpoint Warmup_loop (n : nat) (w : World) : World :=
  match n with
  | O => w
  | S n' =>
      let '(b, m1) := alloc (mem w) in
      match try_send (Buffers (pool w)) b with
      | Some c => Warmup_loop n' (mkWorld m1 (mkPool c))
      | None => mkWorld m1 (pool w)
      end
  end.

(** [for i := 0; i < num; i++]: [num] iterations, none when [num <= 0];
    [length] is not used by the body. *)
Definition Warmup (num length : Z) (w : World) : World :=
  Warmup_loop (Z.to_nat num) w.

Definition New (w : World) : nat * World :=
  match try_recv (Buffers (pool w)) with
  | Some (buf, c) => (buf, mkWorld (mem w) (mkPool c))
  | None => let '(buf, m1) := alloc (mem w) in (buf, mkWorld m1 (pool w))
  end.

Definition Recycle (buf : ptr) (w : World) : World :=
  let m1 := Reset buf (mem w) in
  match try_send (Buffers (pool w)) buf with
  | Some c => mkWorld m1 (mkPool c)
  | None => mkWorld m1 (pool w)
  end.

(** What the callers of one pool do, one call at a time: the three methods,
    a write to a buffer they hold the address of, and the allocation of a
    buffer of their own with some content. *)
Inductive Op :=
| OpWarmup (num length : Z)
| OpNew
| OpRecycle (buf : nat)
| OpWrite (buf : nat) (s : string)
| OpAlloc (s : string).

Definition exec (w : World) (o : Op) : World :=
  match o with
  | OpWarmup num length => Warmup num length w
  | OpNew => snd (New w)
  | OpRecycle buf => Recycle buf w
  | OpWrite buf s => mkWorld (WriteString buf s (mem w)) (pool w)
  | OpAlloc s =>
      let '(b, m1) := alloc (mem w) in
      mkWorld (WriteString b s m1) (pool w)
  end.

Definition run (ops : list Op) (w : World) : World := fold_left exec ops w.

(** The addresses an operation is given are addresses of allocated buffers:
    Go has no other non-nil pointers. *)
Fixpoint live_pointers (ops : list Op) (w : World) : bool :=
  match ops with
  | [] => true
  | o :: rest =>
      match o with
      | OpRecycle buf | OpWrite buf _ => (buf <? next (mem w))%nat
      | _ => true
      end && live_pointers rest (exec w o)
  end.

(** The convention of the pool's callers (one owner at a time): nobody writes
    to a buffer while the pool holds it. *)
Fixpoint single_owner (ops : list Op) (w : World) : bool :=
  match ops with
  | [] => true
  | o :: rest =>
      match o with
      | OpWrite buf _ => negb (existsb (Nat.eqb buf) (queue (Buffers (pool w))))
      | _ => true
      end && single_owner rest (exec w o)
  end.

(** The allocated addresses are exactly those below [next]. *)
Definition wf_memory (m : Memory) : Prop :=
  forall p : nat, is_Some (store m !! p) <-> (p < next m)%nat.

(** How an address got into the pool during [ops], run from [w0]: it was
    passed to [Recycle], or a [Warmup] allocated it. *)
Definition put_in_pool (ops : list Op) (w0 : World) (p : ptr) : Prop :=
  In (OpRecycle p) ops \/
  exists pre num length post,
    ops = pre ++ OpWarmup num length :: post /\
    (next (mem (run pre w0)) <= p < next (mem (Warmup num length (run pre w0))))%nat.

(** The pool holds no more buffers than the channel has room for. *)
Definition within_capacity (w : World) : Prop :=
  (length (queue (Buffers (pool w))) <= capacity (Buffers (pool w)))%nat.

(** Every buffer the pool holds is an allocated buffer with empty content. *)
Definition stored_empty (w : World) : Prop :=
  forall p : nat,
    In p (queue (Buffers (pool w))) -> store (mem w) !! p = Some EmptyString.

(** The invariant of the pool and its memory. *)
Definition pool_invariant (w : World) : Prop :=
  wf_memory (mem w) /\ stored_empty w.

(** [n] calls of [New] in a row, with the addresses they return, in order. *)
Fixpoint NewN (n : nat) (w : World) : list nat * World :=
  match n with
  | O => ([], w)
  | S n' =>
      let '(buf, w1) := New w in
      let '(bufs, w2) := NewN n' w1 in
      (buf :: bufs, w2)
  end.

End Pool.

(* ===================================================================== *)
(** ** Properties of the chunker                                          *)
(* ===================================================================== *)

Section ChunkerFacts.
Import Chunker.

Lemma len_nonneg (s : string) : 0 <= len s.
Proof. unfold len. lia. Qed.

(** With [maxlength <= 0] nothing fits: an iteration entered with an empty
    buffer writes nothing and closes one (empty) chunk. *)
Lemma body_nonpositive n maxlength sep i param js :
  maxlength <= 0 ->
  body n maxlength sep i param (mkLocals EmptyString 0 js)
  = mkLocals EmptyString 0 (js ++ [EmptyString]).
Proof.
  intros Hmax. unfold body. cbn [buffer currlen joined].
  pose proof (len_nonneg param) as Hp.
  pose proof (len_nonneg sep) as Hs.
  destruct (Z.ltb_spec (0 + len param) maxlength) as [Hlt|_]; [lia|].
  destruct (Z.ltb_spec (0 + len sep) maxlength) as [Hlt|_]; [lia|].
  now rewrite andb_false_r.
Qed.

Lemma loop_nonpositive n maxlength sep params : forall i js,
  maxlength <= 0 ->
  loop n maxlength sep i params (mkLocals EmptyString 0 js)
  = mkLocals EmptyString 0 (js ++ repeat EmptyString (length params)).
Proof.
  induction params as [|param rest IH]; intros i js Hmax; cbn [loop length repeat].
  - now rewrite app_nil_r.
  - rewrite body_nonpositive by assumption.
    rewrite IH by assumption.
    now rewrite <- app_assoc.
Qed.

(** With [maxlength <= 0] the result is one empty chunk for every token. *)
Lemma ChunkJoinStrings_nonpositive params maxlength sep :
  maxlength <= 0 ->
  ChunkJoinStrings params maxlength sep = repeat EmptyString (length params).
Proof.
  intros Hmax. unfold ChunkJoinStrings.
  rewrite loop_nonpositive by assumption. reflexivity.
Qed.

End ChunkerFacts.

Section ChunkerClaims.
Import Chunker.

(** C1 (the code departs from the claim). The claim: for non-empty tokens and
    [maxLength] above the longest token plus the separator, every chunk is
    shorter than [maxLength] and the chunks hold exactly the tokens, in order.
    The code, on tokens aa, bb, ccc with [maxLength] 5 and a comma: all three
    tokens satisfy the bound, yet the result is the two chunks "aa,," and
    "ccc", and no chunk holds bb. When a token does not fit the current chunk
    the chunk is closed but the token is never written to the next one. On
    tokens aaa, b with [maxLength] 6 and a two-byte separator the only chunk
    has 6 bytes: [currlen] counts one byte for a separator of any length. *)
Theorem ChunkJoinStrings_drops_fitting_token :
  let params := ["aa"; "bb"; "ccc"] in
  let out := ChunkJoinStrings params 5 "," in
  (params <> [] /\
   Forall (fun t => len t + len "," < 5) params /\
   out = ["aa,,"; "ccc"] /\
   Forall (fun c => contains c "bb" = false) out) /\
  (Forall (fun t => len t + len ", " < 6) ["aaa"; "b"] /\
   ChunkJoinStrings ["aaa"; "b"] 6 ", " = ["aaa, b"] /\
   len "aaa, b" = 6).
Proof.
  cbv zeta. split.
  - split; [discriminate|].
    split; [repeat constructor|].
    split; [vm_compute; reflexivity|].
    vm_compute ChunkJoinStrings. repeat constructor.
  - split; [repeat constructor|].
    split; vm_compute; reflexivity.
Qed.

(** C2, as the code has it: on tokens a, bb, ccc with [maxLength] 4 and a
    comma, every returned chunk is strictly shorter than 4 bytes, so the
    4-byte string "a,bb" is not one of them; the first chunk starts with the
    token a and the last chunk is exactly ccc. *)
Theorem ChunkJoinStrings_example :
  let out := ChunkJoinStrings ["a"; "bb"; "ccc"] 4 "," in
  Forall (fun c => len c < 4) out /\
  ~ In "a,bb" out /\
  (exists c rest, out = c :: rest /\ String.prefix "a" c = true) /\
  List.last out EmptyString = "ccc".
Proof.
  cbv zeta.
  assert (Hout : ChunkJoinStrings ["a"; "bb"; "ccc"] 4 "," = ["a,,"; "ccc"])
    by (vm_compute; reflexivity).
  rewrite Hout. split; [repeat constructor|].
  split.
  - intros [H|[H|[]]]; discriminate H.
  - split; [|reflexivity]. exists "a,,", ["ccc"]. split; reflexivity.
Qed.

(** C2 as stated fails: the call returns "a,," and "ccc", not "a,bb" and
    "ccc". *)
Lemma ChunkJoinStrings_example_differs :
  ChunkJoinStrings ["a"; "bb"; "ccc"] 4 "," = ["a,,"; "ccc"] /\
  ChunkJoinStrings ["a"; "bb"; "ccc"] 4 "," <> ["a,bb"; "ccc"].
Proof.
  assert (Hout : ChunkJoinStrings ["a"; "bb"; "ccc"] 4 "," = ["a,,"; "ccc"])
    by (vm_compute; reflexivity).
  rewrite Hout. split; [reflexivity|discriminate].
Qed.

(** C3 (the code departs from the claim). The claim: a token at least
    [maxLength] long is emitted alone in its own chunk, unmodified. The code,
    on tokens ab, toolong, cd with [maxLength] 5 and a comma, returns "ab,,"
    and "cd": the 7-byte token is in no chunk. Alone, with [maxLength] 3, the
    6-byte token abcdef yields the single chunk "". *)
Theorem ChunkJoinStrings_drops_oversized_token :
  let out := ChunkJoinStrings ["ab"; "toolong"; "cd"] 5 "," in
  (5 <= len "toolong" /\
   out = ["ab,,"; "cd"] /\
   ~ In "toolong" out /\
   Forall (fun c => contains c "toolong" = false) out) /\
  (3 <= len "abcdef" /\ ChunkJoinStrings ["abcdef"] 3 "," = [EmptyString]).
Proof.
  cbv zeta.
  assert (Hout : ChunkJoinStrings ["ab"; "toolong"; "cd"] 5 "," = ["ab,,"; "cd"])
    by (vm_compute; reflexivity).
  rewrite Hout. split.
  - split; [vm_compute; discriminate|].
    split; [reflexivity|].
    split; [intros [H|[H|[]]]; discriminate H|repeat constructor].
  - split; [vm_compute; discriminate|vm_compute; reflexivity].
Qed.

(** C8, as the code has it: when [maxLength <= 0] or there is no token, the
    result has exactly one chunk per token; it is the empty sequence exactly
    when the token sequence is empty. *)
Theorem ChunkJoinStrings_degenerate (params : list string) (maxlength : Z)
    (sep : string) :
  params = [] \/ maxlength <= 0 ->
  length (ChunkJoinStrings params maxlength sep) = length params /\
  (ChunkJoinStrings params maxlength sep = [] <-> params = []).
Proof.
  intros Hdeg.
  assert (Hlen : length (ChunkJoinStrings params maxlength sep) = length params).
  { destruct Hdeg as [->|Hmax]; [reflexivity|].
    rewrite ChunkJoinStrings_nonpositive by assumption.
    apply repeat_length. }
  split; [exact Hlen|].
  split; intros H.
  - rewrite H in Hlen. destruct params; [reflexivity|discriminate Hlen].
  - subst params. reflexivity.
Qed.

Lemma ChunkJoinStrings_degenerate_witness :
  (length (ChunkJoinStrings ["a"; "b"] 0 ",") = length ["a"; "b"] /\
   (ChunkJoinStrings ["a"; "b"] 0 "," = [] <-> ["a"; "b"] = [])) /\
  (length (ChunkJoinStrings [] 7 ",") = length (@nil string) /\
   (ChunkJoinStrings [] 7 "," = [] <-> @nil string = [])).
Proof.
  split.
  - apply (ChunkJoinStrings_degenerate ["a"; "b"] 0 ","). right. lia.
  - apply (ChunkJoinStrings_degenerate [] 7 ","). left. reflexivity.
Defined.

(** C8 as stated fails: with [maxLength] 0 and one token the result is one
    (empty) chunk, not the empty sequence. *)
Lemma ChunkJoinStrings_nonpositive_not_empty :
  0 <= 0 /\
  ChunkJoinStrings ["a"] 0 "," = [EmptyString] /\
  ChunkJoinStrings ["a"] 0 "," <> [].
Proof.
  split; [lia|]. split; [reflexivity|discriminate].
Qed.

End ChunkerClaims.

(* ===================================================================== *)
(** ** Properties of the string map                                       *)
(* ===================================================================== *)

Section MapClaims.
Import ConcurrentMap.

(** The four methods, case by case on whether the key is there. *)
Lemma Add_absent k v m :
  data m !! k = None -> Add k v m = (None, mkMap (<[k := v]> (data m))).
Proof. intros H. unfold Add. now rewrite H. Qed.

Lemma Add_present k v m :
  is_Some (data m !! k) -> Add k v m = (Some (Errorf add_exists k), m).
Proof. intros [x H]. unfold Add. now rewrite H. Qed.

Lemma Del_absent k m :
  data m !! k = None -> Del k m = (Some (Errorf del_missing k), m).
Proof. intros H. unfold Del. now rewrite H. Qed.

Lemma Del_present k m :
  is_Some (data m !! k) -> Del k m = (None, mkMap (delete k (data m))).
Proof. intros [x H]. unfold Del. now rewrite H. Qed.

Lemma Get_absent k m :
  data m !! k = None -> Get k m = (EmptyString, Some (Errorf get_missing k)).
Proof. intros H. unfold Get. now rewrite H. Qed.

Lemma Get_present k v m :
  data m !! k = Some v -> Get k m = (v, None).
Proof. intros H. unfold Get. now rewrite H. Qed.

Lemma Set_absent k v m :
  data m !! k = None -> Set_ k v m = (Some (Errorf set_missing k), m).
Proof. intros H. unfold Set_. now rewrite H. Qed.

Lemma Set_present k v m :
  is_Some (data m !! k) -> Set_ k v m = (None, mkMap (<[k := v]> (data m))).
Proof. intros [x H]. unfold Set_. now rewrite H. Qed.

Lemma present_or_absent (m : ConcurrentMapString) (k : string) :
  is_Some (data m !! k) \/ data m !! k = None.
Proof. destruct (data m !! k); [left; eauto|right; reflexivity]. Qed.

Lemma not_both (m : ConcurrentMapString) (k : string) :
  is_Some (data m !! k) -> data m !! k = None -> False.
Proof. intros [x H] H'. congruence. Qed.

Lemma kind_add k : kind (Some (Errorf add_exists k)) = Some AlreadyExists.
Proof. reflexivity. Qed.

Lemma kind_del k : kind (Some (Errorf del_missing k)) = Some NotFound.
Proof. reflexivity. Qed.

Lemma kind_get k : kind (Some (Errorf get_missing k)) = Some NotFound.
Proof. reflexivity. Qed.

Lemma kind_set k : kind (Some (Errorf set_missing k)) = Some NotFound.
Proof. reflexivity. Qed.

(** Case analysis on the presence of [k] in [m], rewriting the four methods
    with their equation for that case. *)
Ltac by_presence m k :=
  destruct (present_or_absent m k) as [Hin|Hout];
  [ pose proof Hin as [cur Hcur];
    rewrite ?(Add_present k _ m Hin), ?(Del_present k m Hin),
            ?(Get_present k cur m Hcur), ?(Set_present k _ m Hin)
  | rewrite ?(Add_absent k _ m Hout), ?(Del_absent k m Hout),
            ?(Get_absent k m Hout), ?(Set_absent k _ m Hout) ];
  cbn [fst snd];
  rewrite ?kind_add, ?kind_del, ?kind_get, ?kind_set.

(** C4. For every map [m], key [k] and value [v]:
    [Add] succeeds exactly when [k] is absent, and fails with AlreadyExists
    exactly when [k] is present; after a successful [Add k v], [Get k] returns
    [v]; [Get], [Del] and [Set] succeed exactly when [k] is present and fail
    with NotFound exactly when it is absent; a present key is read by [Get]
    with its current value; after a successful [Del k], [Get k] and [Del k]
    fail with NotFound. *)
Theorem map_operations_contract (m : ConcurrentMapString) (k v : string) :
  (* Add *)
  ((fst (Add k v m) = None <-> data m !! k = None) /\
   (kind (fst (Add k v m)) = Some AlreadyExists <-> is_Some (data m !! k)) /\
   (data m !! k = None -> Get k (snd (Add k v m)) = (v, None))) /\
  (* Get *)
  ((snd (Get k m) = None <-> is_Some (data m !! k)) /\
   (kind (snd (Get k m)) = Some NotFound <-> data m !! k = None) /\
   (forall cur, data m !! k = Some cur -> Get k m = (cur, None))) /\
  (* Del *)
  ((fst (Del k m) = None <-> is_Some (data m !! k)) /\
   (kind (fst (Del k m)) = Some NotFound <-> data m !! k = None) /\
   (fst (Del k m) = None ->
      kind (snd (Get k (snd (Del k m)))) = Some NotFound /\
      kind (fst (Del k (snd (Del k m)))) = Some NotFound)) /\
  (* Set *)
  ((fst (Set_ k v m) = None <-> is_Some (data m !! k)) /\
   (kind (fst (Set_ k v m)) = Some NotFound <-> data m !! k = None)).
Proof.
  repeat split; try (intros H); try (intros cur' H').
  all: try (try revert H; by_presence m k; try intros H; first
       [ reflexivity | assumption | discriminate
       | exfalso; eapply not_both; eassumption
       | congruence ]).
  - (* Get after Add *)
    rewrite (Add_absent k v m H). cbn [snd].
    apply Get_present. cbn [data]. apply lookup_insert_eq.
  - (* Get after Del *)
    destruct (present_or_absent m k) as [Hin|Hout].
    + rewrite (Del_present k m Hin). cbn [snd].
      rewrite Get_absent by (cbn [data]; apply lookup_delete_eq).
      reflexivity.
    + rewrite (Del_absent k m Hout) in H. discriminate H.
  - (* Del after Del *)
    destruct (present_or_absent m k) as [Hin|Hout].
    + rewrite (Del_present k m Hin). cbn [snd].
      rewrite Del_absent by (cbn [data]; apply lookup_delete_eq).
      reflexivity.
    + rewrite (Del_absent k m Hout) in H. discriminate H.
Qed.

(** C5. When [Add], [Set] or [Del] returns an error, the map after the call is
    the map before it; the error of [Add] is AlreadyExists, that of [Set] and
    [Del] is NotFound. *)
Theorem map_errors_leave_map_unchanged (m : ConcurrentMapString) (k v : string) :
  (is_Some (fst (Add k v m)) ->
     snd (Add k v m) = m /\ kind (fst (Add k v m)) = Some AlreadyExists) /\
  (is_Some (fst (Set_ k v m)) ->
     snd (Set_ k v m) = m /\ kind (fst (Set_ k v m)) = Some NotFound) /\
  (is_Some (fst (Del k m)) ->
     snd (Del k m) = m /\ kind (fst (Del k m)) = Some NotFound).
Proof.
  split; [|split]; intros [e He]; revert He; by_presence m k;
    intros He; first [discriminate He | split; reflexivity].
Qed.

Lemma map_operations_contract_witness :
  Get "k" (snd (Add "k" "v" NewConcurrentMapString)) = ("v", None) /\
  kind (snd (Get "k" (snd (Del "k" (snd (Add "k" "v" NewConcurrentMapString))))))
  = Some NotFound.
Proof.
  split.
  - apply (map_operations_contract NewConcurrentMapString "k" "v"). reflexivity.
  - apply (map_operations_contract (snd (Add "k" "v" NewConcurrentMapString)) "k" "v").
    vm_compute. reflexivity.
Defined.

Lemma map_errors_leave_map_unchanged_witness :
  snd (Add "k" "new" (mkMap {[ "k" := "old" ]})) = mkMap {[ "k" := "old" ]} /\
  kind (fst (Add "k" "new" (mkMap {[ "k" := "old" ]}))) = Some AlreadyExists.
Proof.
  apply (map_errors_leave_map_unchanged (mkMap {[ "k" := "old" ]}) "k" "new").
  eexists. vm_compute. reflexivity.
Defined.

(** *** Calls of [Add] with distinct keys, in any order

    The lock makes every method one atomic step, so whatever the schedule of
    callers, the map sees their calls one after the other in some order. The
    two lemmas below are about such sequences: with pairwise distinct keys
    that the map does not hold, every [Add] returns [nil], the map grows by
    the number of calls and holds every pair, and the order does not matter. *)
Lemma AddAll_distinct (kvs : list (string * string)) :
  forall m : ConcurrentMapString,
  NoDup kvs.*1 ->
  (forall k, k ∈ kvs.*1 -> data m !! k = None) ->
  fst (AddAll kvs m) = repeat None (length kvs) /\
  Length (snd (AddAll kvs m)) = Length m + Z.of_nat (length kvs) /\
  (forall k v, (k, v) ∈ kvs -> data (snd (AddAll kvs m)) !! k = Some v) /\
  (forall k, k ∉ kvs.*1 -> data (snd (AddAll kvs m)) !! k = data m !! k).
Proof.
  induction kvs as [|[k v] rest IH]; intros m Hnd Hout.
  - cbn [AddAll fst snd length repeat].
    split; [reflexivity|]. split; [cbn; lia|].
    split; [intros k v Hin; inversion Hin|reflexivity].
  - rewrite fmap_cons in Hnd, Hout. cbn [fst] in Hnd, Hout.
    apply NoDup_cons in Hnd as [Hk Hnd].
    assert (Hkout : data m !! k = None) by (apply Hout; left).
    cbn [AddAll]. rewrite (Add_absent k v m Hkout).
    set (m1 := mkMap (<[k := v]> (data m))).
    destruct (IH m1 Hnd) as (He & Hlen & Hin & Hother).
    { intros k' Hk'. cbn [m1 data].
      rewrite lookup_insert_ne by (intros ->; contradiction).
      apply Hout. now right. }
    destruct (AddAll rest m1) as [es m2]. cbn [fst snd] in *.
    split; [now rewrite He|]. split; [|split].
    + rewrite Hlen. unfold Length. cbn [m1 data].
      rewrite map_size_insert_None by assumption. cbn [length]. lia.
    + intros k' v' Hkv. apply elem_of_cons in Hkv as [Heq|Hkv].
      * injection Heq as -> ->. rewrite (Hother k Hk). cbn [m1 data].
        apply lookup_insert_eq.
      * now apply Hin.
    + intros k' Hk'. rewrite fmap_cons in Hk'. cbn [fst] in Hk'.
      apply not_elem_of_cons in Hk' as [Hne Hk'].
      rewrite (Hother k' Hk'). cbn [m1 data].
      now rewrite lookup_insert_ne by congruence.
Qed.

Lemma AddAll_any_order (kvs kvs' : list (string * string)) (m : ConcurrentMapString) :
  kvs ≡ₚ kvs' ->
  NoDup kvs.*1 ->
  (forall k, k ∈ kvs.*1 -> data m !! k = None) ->
  snd (AddAll kvs' m) = snd (AddAll kvs m) /\
  fst (AddAll kvs' m) = repeat None (length kvs) /\
  Length (snd (AddAll kvs' m)) = Length m + Z.of_nat (length kvs).
Proof.
  intros Hperm Hnd Hout.
  assert (Hperm1 : kvs.*1 ≡ₚ kvs'.*1) by now apply fmap_Permutation.
  assert (Hnd' : NoDup kvs'.*1) by now rewrite <- Hperm1.
  assert (Hout' : forall k, k ∈ kvs'.*1 -> data m !! k = None).
  { intros k Hk. apply Hout. now rewrite Hperm1. }
  destruct (AddAll_distinct kvs m Hnd Hout) as (_ & _ & Hin & Hother).
  destruct (AddAll_distinct kvs' m Hnd' Hout') as (He' & Hlen' & Hin' & Hother').
  rewrite <- (Permutation_length Hperm) in He', Hlen'.
  split; [|split; assumption].
  destruct (snd (AddAll kvs' m)) as [d'], (snd (AddAll kvs m)) as [d].
  cbn [data] in *. f_equal. apply map_eq. intros k.
  destruct (decide (k ∈ kvs.*1)) as [Hk|Hk].
  - apply list_elem_of_fmap in Hk as ([k0 v] & -> & Hkv). cbn [fst].
    rewrite (Hin k0 v Hkv). apply Hin'. now rewrite <- Hperm.
  - rewrite (Hother k Hk). apply Hother'. now rewrite <- Hperm1.
Qed.

End MapClaims.

(* ===================================================================== *)
(** ** Properties of the buffer pool                                      *)
(* ===================================================================== *)

Section PoolFacts.
Import Pool.

(** *** The channel *)

Lemma try_send_Some c p c' :
  try_send c p = Some c' ->
  (length (queue c) < capacity c)%nat /\
  queue c' = queue c ++ [p] /\ capacity c' = capacity c.
Proof.
  unfold try_send.
  destruct (Nat.ltb_spec (length (queue c)) (capacity c)) as [Hlt|Hge];
    intros Heq; inversion Heq; subst; cbn; auto.
Qed.

Lemma try_send_None c p :
  try_send c p = None <-> (capacity c <= length (queue c))%nat.
Proof.
  unfold try_send.
  destruct (Nat.ltb_spec (length (queue c)) (capacity c)) as [Hlt|Hge];
    split; intros Heq; try discriminate; try reflexivity; lia.
Qed.

(** *** Allocation, [Reset] and [WriteString] on a well-formed memory *)

Lemma alloc_fresh m : wf_memory m -> store m !! next m = None.
Proof.
  intros Hwf. destruct (store m !! next m) eqn:E; [|reflexivity].
  assert (Hlt : (next m < next m)%nat) by (apply Hwf; eauto). lia.
Qed.

Lemma alloc_wf m : wf_memory m -> wf_memory (snd (alloc m)).
Proof.
  intros Hwf p. cbn. rewrite lookup_insert_is_Some. rewrite (Hwf p).
  split; [intros [->|[_ H]]; lia | intros H].
  destruct (decide (next m = p)) as [->|Hne]; [left; reflexivity|right; split; [assumption|lia]].
Qed.

Lemma alloc_lookup_new m : store (snd (alloc m)) !! fst (alloc m) = Some EmptyString.
Proof. cbn. apply lookup_insert_eq. Qed.

Lemma alloc_lookup_old m p c :
  wf_memory m -> store m !! p = Some c -> store (snd (alloc m)) !! p = Some c.
Proof.
  intros Hwf Hp. cbn. rewrite lookup_insert_ne; [assumption|].
  intros Heq. rewrite <- Heq, (alloc_fresh m Hwf) in Hp. discriminate Hp.
Qed.

Lemma Reset_wf buf m : wf_memory m -> wf_memory (Reset buf m).
Proof.
  intros Hwf p. cbn. rewrite <- (Hwf p).
  destruct (decide (buf = p)) as [->|Hne].
  - rewrite lookup_alter_eq. rewrite fmap_is_Some. reflexivity.
  - rewrite lookup_alter_ne by assumption. reflexivity.
Qed.

Lemma WriteString_wf buf s m : wf_memory m -> wf_memory (WriteString buf s m).
Proof.
  intros Hwf p. cbn. rewrite <- (Hwf p).
  destruct (decide (buf = p)) as [->|Hne].
  - rewrite lookup_alter_eq. rewrite fmap_is_Some. reflexivity.
  - rewrite lookup_alter_ne by assumption. reflexivity.
Qed.

Lemma Reset_lookup_eq buf m :
  is_Some (store m !! buf) -> store (Reset buf m) !! buf = Some EmptyString.
Proof. intros [c Hc]. cbn. rewrite lookup_alter_eq, Hc. reflexivity. Qed.

Lemma Reset_lookup_ne buf m p :
  p <> buf -> store (Reset buf m) !! p = store m !! p.
Proof. intros Hne. cbn. apply lookup_alter_ne. congruence. Qed.

Lemma Reset_keeps_empty buf m p :
  store m !! p = Some EmptyString -> store (Reset buf m) !! p = Some EmptyString.
Proof.
  intros Hp. destruct (decide (p = buf)) as [->|Hne].
  - apply Reset_lookup_eq. eauto.
  - rewrite Reset_lookup_ne by assumption. exact Hp.
Qed.

Lemma WriteString_lookup_ne buf s m p :
  p <> buf -> store (WriteString buf s m) !! p = store m !! p.
Proof. intros Hne. cbn. apply lookup_alter_ne. congruence. Qed.

(** *** The invariant: what the pool holds is allocated and empty *)

Lemma stored_empty_send w b c :
  stored_empty w ->
  store (mem w) !! b = Some EmptyString ->
  try_send (Buffers (pool w)) b = Some c ->
  stored_empty (mkWorld (mem w) (mkPool c)).
Proof.
  intros Hse Hb Hsend p Hin. cbn in Hin |- *.
  apply try_send_Some in Hsend as (_ & Hq & _). rewrite Hq in Hin.
  apply in_app_or in Hin as [Hin|[<-|[]]]; auto.
Qed.

Lemma stored_empty_memory w m' :
  stored_empty w ->
  (forall p : nat, store (mem w) !! p = Some EmptyString ->
                   store m' !! p = Some EmptyString) ->
  stored_empty (mkWorld m' (pool w)).
Proof. intros Hse Hm p Hin. cbn in *. auto. Qed.

Lemma alloc_invariant w :
  pool_invariant w -> pool_invariant (mkWorld (snd (alloc (mem w))) (pool w)).
Proof.
  intros [Hwf Hse]. split; cbn [mem].
  - now apply alloc_wf.
  - apply stored_empty_memory; [assumption|].
    intros p Hp. now apply alloc_lookup_old.
Qed.

Lemma Warmup_loop_invariant n : forall w,
  pool_invariant w -> pool_invariant (Warmup_loop n w).
Proof.
  induction n as [|n IH]; intros w Hinv; cbn [Warmup_loop]; [assumption|].
  pose proof (alloc_invariant w Hinv) as Hinv1.
  pose proof (alloc_lookup_new (mem w)) as Hnew.
  revert Hinv1 Hnew. destruct (alloc (mem w)) as [b m1]. cbn [fst snd].
  intros Hinv1 Hnew.
  destruct (try_send (Buffers (pool w)) b) as [c|] eqn:Hsend; [|assumption].
  apply IH. destruct Hinv1 as [Hwf1 Hse1]. split; [assumption|].
  exact (stored_empty_send (mkWorld m1 (pool w)) b c Hse1 Hnew Hsend).
Qed.

Lemma New_invariant w : pool_invariant w -> pool_invariant (snd (New w)).
Proof.
  intros Hinv. unfold New, try_recv.
  destruct (queue (Buffers (pool w))) as [|p q] eqn:Hq; cbn [snd].
  - pose proof (alloc_invariant w Hinv) as Hinv1. revert Hinv1.
    destruct (alloc (mem w)) as [b m1]. cbn [snd]. auto.
  - destruct Hinv as [Hwf Hse]. split; [assumption|].
    intros p' Hin. cbn in Hin |- *. apply Hse. rewrite Hq. now right.
Qed.

Lemma Recycle_invariant buf w :
  is_Some (store (mem w) !! buf) ->
  pool_invariant w -> pool_invariant (Recycle buf w).
Proof.
  intros Hlive [Hwf Hse]. unfold Recycle.
  assert (Hse1 : stored_empty (mkWorld (Reset buf (mem w)) (pool w))).
  { apply stored_empty_memory; [assumption|]. intros p. apply Reset_keeps_empty. }
  destruct (try_send (Buffers (pool w)) buf) as [c|] eqn:Hsend.
  - split; cbn [mem]; [now apply Reset_wf|].
    apply (stored_empty_send (mkWorld (Reset buf (mem w)) (pool w)) buf c);
      [assumption| |assumption].
    cbn [mem]. now apply Reset_lookup_eq.
  - split; cbn [mem]; [now apply Reset_wf|assumption].
Qed.

Lemma not_stored buf (q : list nat) :
  negb (existsb (Nat.eqb buf) q) = true -> ~ In buf q.
Proof.
  intros Hneg Hin. apply negb_true_iff in Hneg.
  assert (Hex : existsb (Nat.eqb buf) q = true).
  { apply existsb_exists. exists buf. split; [assumption|apply Nat.eqb_refl]. }
  congruence.
Qed.

Lemma Write_invariant buf s w :
  ~ In buf (queue (Buffers (pool w))) ->
  pool_invariant w ->
  pool_invariant (mkWorld (WriteString buf s (mem w)) (pool w)).
Proof.
  intros Hout [Hwf Hse]. split; cbn [mem]; [now apply WriteString_wf|].
  intros p Hin. cbn in Hin |- *.
  rewrite lookup_alter_ne; [now apply Hse|].
  intros ->. contradiction.
Qed.

Lemma Alloc_invariant s w :
  pool_invariant w -> pool_invariant (exec w (OpAlloc s)).
Proof.
  intros Hinv. cbn [exec].
  pose proof (alloc_invariant w Hinv) as Hinv1.
  assert (Hb : fst (alloc (mem w)) = next (mem w)) by reflexivity.
  revert Hinv1 Hb. destruct (alloc (mem w)) as [b m1]. cbn [fst snd].
  intros Hinv1 ->. apply (Write_invariant _ s (mkWorld m1 (pool w))); [|assumption].
  cbn [pool]. intros Hin. destruct Hinv as [Hwf Hse].
  apply Hse in Hin. rewrite (alloc_fresh _ Hwf) in Hin. discriminate Hin.
Qed.

(** One call keeps the invariant, when the addresses it is given are live and
    no write goes to a buffer the pool holds. *)
Lemma exec_invariant o w :
  live_pointers [o] w = true ->
  single_owner [o] w = true ->
  pool_invariant w -> pool_invariant (exec w o).
Proof.
  intros Hlive Hown Hinv. cbn [live_pointers single_owner] in Hlive, Hown.
  rewrite andb_true_r in Hlive, Hown.
  destruct o as [num len| |buf|buf s|s].
  - now apply Warmup_loop_invariant.
  - now apply New_invariant.
  - apply Recycle_invariant; [|assumption].
    apply Nat.ltb_lt in Hlive. now apply (proj1 Hinv).
  - apply Write_invariant; [|assumption]. now apply not_stored.
  - now apply Alloc_invariant.
Qed.

Lemma live_pointers_cons o ops w :
  live_pointers (o :: ops) w = true <->
  live_pointers [o] w = true /\ live_pointers ops (exec w o) = true.
Proof. cbn [live_pointers]. rewrite andb_true_r. apply andb_true_iff. Qed.

Lemma single_owner_cons o ops w :
  single_owner (o :: ops) w = true <->
  single_owner [o] w = true /\ single_owner ops (exec w o) = true.
Proof. cbn [single_owner]. rewrite andb_true_r. apply andb_true_iff. Qed.

Lemma run_invariant ops : forall w,
  live_pointers ops w = true ->
  single_owner ops w = true ->
  pool_invariant w -> pool_invariant (run ops w).
Proof.
  induction ops as [|o ops IH]; intros w Hlive Hown Hinv; [assumption|].
  apply live_pointers_cons in Hlive as [Hl1 Hl2].
  apply single_owner_cons in Hown as [Ho1 Ho2].
  change (run (o :: ops) w) with (run ops (exec w o)).
  apply IH; [assumption..|]. now apply exec_invariant.
Qed.

(** *** The bound on the number of stored buffers *)

Lemma Warmup_loop_capacity n : forall w,
  within_capacity w ->
  within_capacity (Warmup_loop n w) /\
  capacity (Buffers (pool (Warmup_loop n w))) = capacity (Buffers (pool w)).
Proof.
  induction n as [|n IH]; intros w Hcap; cbn [Warmup_loop]; [auto|].
  destruct (alloc (mem w)) as [b m1].
  destruct (try_send (Buffers (pool w)) b) as [c|] eqn:Hsend; [|auto].
  apply try_send_Some in Hsend as (Hlt & Hq & Hc).
  destruct (IH (mkWorld m1 (mkPool c))) as [Hcap' Hsame].
  - unfold within_capacity. cbn. rewrite Hq, Hc, length_app. cbn. lia.
  - split; [assumption|]. rewrite Hsame. cbn. exact Hc.
Qed.

Lemma New_capacity w :
  within_capacity w ->
  within_capacity (snd (New w)) /\
  capacity (Buffers (pool (snd (New w)))) = capacity (Buffers (pool w)).
Proof.
  unfold within_capacity, New, try_recv. intros Hcap.
  destruct (queue (Buffers (pool w))) as [|p q] eqn:Hq.
  - destruct (alloc (mem w)) as [b m1]. cbn. rewrite Hq. auto.
  - cbn in *. split; [lia|reflexivity].
Qed.

Lemma Recycle_capacity buf w :
  within_capacity w ->
  within_capacity (Recycle buf w) /\
  capacity (Buffers (pool (Recycle buf w))) = capacity (Buffers (pool w)).
Proof.
  unfold within_capacity, Recycle. intros Hcap.
  destruct (try_send (Buffers (pool w)) buf) as [c|] eqn:Hsend; [|auto].
  apply try_send_Some in Hsend as (Hlt & Hq & Hc).
  cbn. rewrite Hq, Hc, length_app. cbn. split; [lia|reflexivity].
Qed.

Lemma exec_capacity o w :
  within_capacity w ->
  within_capacity (exec w o) /\
  capacity (Buffers (pool (exec w o))) = capacity (Buffers (pool w)).
Proof.
  intros Hcap. destruct o as [num len| |buf|buf s|s]; cbn [exec].
  - now apply Warmup_loop_capacity.
  - now apply New_capacity.
  - now apply Recycle_capacity.
  - auto.
  - destruct (alloc (mem w)) as [b m1]. auto.
Qed.

Lemma run_capacity ops : forall w,
  within_capacity w ->
  within_capacity (run ops w) /\
  capacity (Buffers (pool (run ops w))) = capacity (Buffers (pool w)).
Proof.
  induction ops as [|o ops IH]; intros w Hcap; [auto|].
  change (run (o :: ops) w) with (run ops (exec w o)).
  destruct (exec_capacity o w Hcap) as [Hcap1 Hsame1].
  destruct (IH _ Hcap1) as [Hcap2 Hsame2].
  split; [assumption|congruence].
Qed.

(** *** Where the stored addresses come from *)

Lemma Warmup_loop_queue n : forall w p,
  In p (queue (Buffers (pool (Warmup_loop n w)))) ->
  In p (queue (Buffers (pool w))) \/
  (next (mem w) <= p < next (mem (Warmup_loop n w)))%nat.
Proof.
  induction n as [|n IH]; intros w p Hin; cbn [Warmup_loop] in *; [auto|].
  assert (Hnext : forall w', (next (mem w') <= next (mem (Warmup_loop n w')))%nat).
  { clear. induction n as [|n IHn]; intros w'; cbn [Warmup_loop]; [lia|].
    unfold alloc.
    destruct (try_send (Buffers (pool w')) (next (mem w'))) as [c|].
    - etransitivity; [|apply IHn]. cbn. lia.
    - cbn. lia. }
  unfold alloc in *.
  destruct (try_send (Buffers (pool w)) (next (mem w))) as [c|] eqn:Hsend.
  - apply try_send_Some in Hsend as (_ & Hq & _).
    specialize (Hnext (mkWorld (mkMemory (<[next (mem w) := EmptyString]> (store (mem w)))
                                         (S (next (mem w)))) (mkPool c))).
    cbn in Hnext. apply IH in Hin as [Hin|Hrange].
    + cbn in Hin. rewrite Hq in Hin.
      apply in_app_or in Hin as [Hin|[<-|[]]]; [auto|]. right. lia.
    + right. cbn in Hrange. lia.
  - cbn in Hin |- *. auto.
Qed.

Lemma exec_queue o w p :
  In p (queue (Buffers (pool (exec w o)))) ->
  In p (queue (Buffers (pool w))) \/ put_in_pool [o] w p.
Proof.
  destruct o as [num len| |buf|buf s|s]; cbn [exec]; intros Hin.
  - apply Warmup_loop_queue in Hin as [Hin|Hrange]; [auto|].
    right. right. exists [], num, len, []. split; [reflexivity|exact Hrange].
  - left. revert Hin. unfold New, try_recv.
    destruct (queue (Buffers (pool w))) as [|p' q] eqn:Hq.
    + destruct (alloc (mem w)) as [b m1]. cbn. rewrite Hq. auto.
    + cbn. auto.
  - revert Hin. unfold Recycle.
    destruct (try_send (Buffers (pool w)) buf) as [c|] eqn:Hsend; cbn; [|auto].
    apply try_send_Some in Hsend as (_ & Hq & _). rewrite Hq.
    intros Hin. apply in_app_or in Hin as [Hin|[<-|[]]]; [auto|].
    right. left. now left.
  - auto.
  - destruct (alloc (mem w)) as [b m1]. auto.
Qed.

Lemma put_in_pool_later o ops w p :
  put_in_pool ops (exec w o) p -> put_in_pool (o :: ops) w p.
Proof.
  intros [Hin|(pre & num & len & post & -> & Hrange)].
  - left. now right.
  - right. exists (o :: pre), num, len, post. split; [reflexivity|exact Hrange].
Qed.

Lemma put_in_pool_first o ops w p :
  put_in_pool [o] w p -> put_in_pool (o :: ops) w p.
Proof.
  intros [[Heq|[]]|(pre & num & len & post & Heq & Hrange)].
  - subst o. left. now left.
  - right. destruct pre as [|o' pre].
    + injection Heq as -> <-. exists [], num, len, ops. split; [reflexivity|exact Hrange].
    + injection Heq as _ Heq. destruct pre; discriminate Heq.
Qed.

Lemma run_queue ops : forall w p,
  In p (queue (Buffers (pool (run ops w)))) ->
  In p (queue (Buffers (pool w))) \/ put_in_pool ops w p.
Proof.
  induction ops as [|o ops IH]; intros w p Hin; [left; exact Hin|].
  change (run (o :: ops) w) with (run ops (exec w o)) in Hin.
  apply IH in Hin as [Hin|Hput].
  - apply exec_queue in Hin as [Hin|Hput]; [auto|].
    right. now apply put_in_pool_first.
  - right. now apply put_in_pool_later.
Qed.

End PoolFacts.

Section PoolClaims.
Import Pool.

Lemma NewBufferPool_Some max pool0 :
  NewBufferPool max = Some pool0 ->
  0 <= max /\ pool0 = mkPool (mkChan [] (Z.to_nat max)).
Proof.
  unfold NewBufferPool. destruct (Z.ltb_spec max 0) as [Hneg|Hpos]; intros Heq.
  - discriminate Heq.
  - injection Heq as <-. split; [assumption|reflexivity].
Qed.

(** C6, as the code has it. Take a pool made by [NewBufferPool] and any
    sequence of [Warmup], [New], [Recycle], allocations and writes by the
    callers, in which the callers keep to the one-owner convention (no write
    to a buffer the pool holds). Then every buffer the pool stores is empty
    and got there through [Recycle] or [Warmup]; the buffer [New] hands out
    next is empty; on an empty pool it is a newly allocated buffer and the
    pool is left as it was; otherwise it is the oldest stored buffer, handed
    out with its content untouched. [New] is a total function: it always
    returns. *)
Theorem New_hands_out_empty_buffers (max : Z) (pool0 : BufferPool)
    (mem0 : Memory) (ops : list Op) :
  NewBufferPool max = Some pool0 ->
  wf_memory mem0 ->
  live_pointers ops (mkWorld mem0 pool0) = true ->
  single_owner ops (mkWorld mem0 pool0) = true ->
  let w0 := mkWorld mem0 pool0 in
  let w := run ops w0 in
  (forall p : nat, In p (queue (Buffers (pool w))) ->
     store (mem w) !! p = Some EmptyString /\ put_in_pool ops w0 p) /\
  store (mem (snd (New w))) !! fst (New w) = Some EmptyString /\
  (queue (Buffers (pool w)) = [] ->
     store (mem w) !! fst (New w) = None /\ pool (snd (New w)) = pool w) /\
  (forall (p : nat) (q : list nat), queue (Buffers (pool w)) = p :: q ->
     fst (New w) = p /\ put_in_pool ops w0 p /\
     mem (snd (New w)) = mem w /\ queue (Buffers (pool (snd (New w)))) = q).
Proof.
  intros Hnew Hwf Hlive Hown w0 w.
  apply NewBufferPool_Some in Hnew as [_ ->].
  assert (Hinv0 : pool_invariant w0) by (split; [exact Hwf|intros p []]).
  assert (Hinv : pool_invariant w) by (apply run_invariant; assumption).
  assert (Hfrom : forall p : nat,
             In p (queue (Buffers (pool w))) -> put_in_pool ops w0 p).
  { intros p Hin. apply run_queue in Hin as [[]|Hput]. exact Hput. }
  destruct Hinv as [Hwfw Hse].
  split; [intros p Hin; split; [now apply Hse|now apply Hfrom]|].
  unfold New, try_recv.
  destruct (queue (Buffers (pool w))) as [|p q] eqn:Hq.
  - pose proof (alloc_lookup_new (mem w)) as Hfresh.
    pose proof (alloc_fresh (mem w) Hwfw) as Hnone.
    assert (Hb : fst (alloc (mem w)) = next (mem w)) by reflexivity.
    revert Hfresh Hb. destruct (alloc (mem w)) as [b m1]. cbn [fst snd mem pool].
    intros Hfresh ->. split; [exact Hfresh|]. split; [auto|].
    intros p q Hcons. discriminate Hcons.
  - cbn [fst snd mem pool Buffers queue].
    assert (Hp : In p (queue (Buffers (pool w)))) by (rewrite Hq; now left).
    split; [now apply Hse|]. split; [intros Hnil; discriminate Hnil|].
    intros p' q' Hcons. injection Hcons as <- <-.
    split; [reflexivity|]. split; [apply Hfrom; now left|]. split; reflexivity.
Qed.

Lemma New_hands_out_empty_buffers_witness :
  let ops := [OpWarmup 1 0; OpNew; OpWrite 0 "abc"; OpRecycle 0;
              OpAlloc "xyz"; OpRecycle 1] in
  let w0 := mkWorld (mkMemory ∅ 0) (mkPool (mkChan [] 2)) in
  (NewBufferPool 2 = Some (pool w0) /\
   live_pointers ops w0 = true /\ single_owner ops w0 = true) /\
  queue (Buffers (pool (run ops w0))) = [0%nat; 1%nat] /\
  store (mem (snd (New (run ops w0)))) !! fst (New (run ops w0))
  = Some EmptyString.
Proof.
  cbv zeta. split; [repeat split; vm_compute; reflexivity|].
  split; [vm_compute; reflexivity|].
  refine (proj1 (proj2 (New_hands_out_empty_buffers 2
            (mkPool (mkChan [] 2)) (mkMemory ∅ 0)
            [OpWarmup 1 0; OpNew; OpWrite 0 "abc"; OpRecycle 0;
             OpAlloc "xyz"; OpRecycle 1] _ _ _ _))).
  - reflexivity.
  - intros p. cbn. rewrite lookup_empty. split; [intros [x Hx]; discriminate Hx|lia].
  - vm_compute. reflexivity.
  - vm_compute. reflexivity.
Defined.

(** C6 as stated fails: the pool stores addresses, and [New] hands a stored
    address out without looking at the buffer. A caller that writes to a
    buffer after recycling it finds the pool holding a non-empty buffer, and
    [New] hands that buffer out with the late content. *)
Lemma New_hands_out_written_buffer :
  let ops := [OpNew; OpWrite 0 "first"; OpRecycle 0; OpWrite 0 "late"] in
  let w0 := mkWorld (mkMemory ∅ 0) (mkPool (mkChan [] 1)) in
  (NewBufferPool 1 = Some (pool w0) /\ live_pointers ops w0 = true) /\
  fst (New w0) = 0%nat /\
  In (OpRecycle 0) ops /\
  queue (Buffers (pool (run ops w0))) = [0%nat] /\
  store (mem (run ops w0)) !! 0%nat = Some "late" /\
  fst (New (run ops w0)) = 0%nat /\
  store (mem (snd (New (run ops w0)))) !! fst (New (run ops w0)) = Some "late".
Proof.
  cbv zeta. split; [split; vm_compute; reflexivity|].
  split; [vm_compute; reflexivity|].
  split; [right; right; left; reflexivity|].
  repeat split; vm_compute; reflexivity.
Qed.

(** C7. For a pool made with capacity [max], after any sequence of [Warmup],
    [New] and [Recycle] (and whatever the callers do to buffers) the number of
    stored buffers is at most [max]; [Recycle] on a pool that holds [max]
    buffers leaves the pool as it is, the buffer is not stored, and the call
    returns ([Recycle] is a total function, its [select] has a [default]). *)
Theorem pool_never_exceeds_capacity (max : Z) (pool0 : BufferPool)
    (mem0 : Memory) (ops : list Op) :
  NewBufferPool max = Some pool0 ->
  let w := run ops (mkWorld mem0 pool0) in
  capacity (Buffers (pool w)) = Z.to_nat max /\
  Z.of_nat (length (queue (Buffers (pool w)))) <= max /\
  (forall buf : nat,
     Z.of_nat (length (queue (Buffers (pool w)))) = max ->
     pool (Recycle buf w) = pool w).
Proof.
  intros Hnew w.
  apply NewBufferPool_Some in Hnew as [Hpos ->].
  destruct (run_capacity ops (mkWorld mem0 (mkPool (mkChan [] (Z.to_nat max)))))
    as [Hcap Hsame].
  { unfold within_capacity. cbn. lia. }
  fold w in Hcap, Hsame. unfold within_capacity in Hcap. cbn in Hsame.
  split; [exact Hsame|]. split; [lia|].
  intros buf Hfull. unfold Recycle.
  destruct (try_send (Buffers (pool w)) buf) as [c|] eqn:Hsend; [|reflexivity].
  apply try_send_Some in Hsend as (Hlt & _). lia.
Qed.

Lemma pool_never_exceeds_capacity_witness :
  let ops := [OpWarmup 5 0; OpRecycle 7; OpNew; OpRecycle 0; OpRecycle 0] in
  let w := run ops (mkWorld (mkMemory ∅ 0) (mkPool (mkChan [] 2))) in
  NewBufferPool 2 = Some (mkPool (mkChan [] 2)) /\
  length (queue (Buffers (pool w))) = 2%nat /\
  Z.of_nat (length (queue (Buffers (pool w)))) <= 2.
Proof.
  cbv zeta. split; [reflexivity|]. split; [vm_compute; reflexivity|].
  refine (proj1 (proj2 (pool_never_exceeds_capacity 2
            (mkPool (mkChan [] 2)) (mkMemory ∅ 0)
            [OpWarmup 5 0; OpRecycle 7; OpNew; OpRecycle 0; OpRecycle 0] _))).
  reflexivity.
Defined.

(** C10. [Recycle] resets the buffer it is given whatever the state of the
    pool: the memory after the call is the memory before it with that buffer
    reset, so the buffer is empty at its address, the one the caller still
    holds, and no other buffer changed. When the pool is full the buffer is
    not stored and the pool is as before; when there is room the address is
    queued last. *)
Theorem Recycle_resets_buffer (w : World) (buf : nat) :
  is_Some (store (mem w) !! buf) ->
  mem (Recycle buf w) = Reset buf (mem w) /\
  store (mem (Recycle buf w)) !! buf = Some EmptyString /\
  (forall p : nat, p <> buf ->
     store (mem (Recycle buf w)) !! p = store (mem w) !! p) /\
  ((capacity (Buffers (pool w)) <= length (queue (Buffers (pool w))))%nat ->
     pool (Recycle buf w) = pool w) /\
  ((length (queue (Buffers (pool w))) < capacity (Buffers (pool w)))%nat ->
     queue (Buffers (pool (Recycle buf w))) = queue (Buffers (pool w)) ++ [buf]).
Proof.
  intros Hlive.
  assert (Hmem : mem (Recycle buf w) = Reset buf (mem w)).
  { unfold Recycle. now destruct (try_send (Buffers (pool w)) buf). }
  split; [exact Hmem|]. rewrite Hmem.
  split; [now apply Reset_lookup_eq|].
  split; [intros p Hne; now apply Reset_lookup_ne|].
  unfold Recycle. split; intros Hlen.
  - now rewrite (proj2 (try_send_None (Buffers (pool w)) buf) Hlen).
  - destruct (try_send (Buffers (pool w)) buf) as [c|] eqn:Hsend.
    + apply try_send_Some in Hsend as (_ & Hq & _). exact Hq.
    + apply try_send_None in Hsend. lia.
Qed.

Lemma Recycle_resets_buffer_witness :
  let w := mkWorld (mkMemory {[ 0%nat := "old"; 1%nat := "data" ]} 2)
                   (mkPool (mkChan [0%nat] 1)) in
  is_Some (store (mem w) !! 1%nat) /\
  store (mem (Recycle 1 w)) !! 1%nat = Some EmptyString /\
  pool (Recycle 1 w) = pool w.
Proof.
  cbv zeta.
  assert (Hlive : is_Some (store (mem (mkWorld
            (mkMemory {[ 0%nat := "old"; 1%nat := "data" ]} 2)
            (mkPool (mkChan [0%nat] 1)))) !! 1%nat))
    by (exists "data"; vm_compute; reflexivity).
  split; [exact Hlive|].
  pose proof (Recycle_resets_buffer _ 1%nat Hlive) as (_ & Hempty & _ & Hfull & _).
  split; [exact Hempty|]. apply Hfull. cbn. lia.
Defined.

End PoolClaims.

(* ===================================================================== *)
(** ** More on the chunker                                                *)
(* ===================================================================== *)

Section ChunkerMore.
Import Chunker.

Lemma append_nil (b : string) : String.append EmptyString b = b.
Proof. reflexivity. Qed.

Lemma append_cons ch (a b : string) :
  String.append (String ch a) b = String ch (String.append a b).
Proof. reflexivity. Qed.

Lemma len_append (a b : string) : len (String.append a b) = len a + len b.
Proof.
  unfold len. induction a as [|ch a IH].
  - rewrite append_nil. reflexivity.
  - rewrite append_cons. cbn [String.length]. lia.
Qed.

Lemma append_assoc (a b c : string) :
  String.append (String.append a b) c = String.append a (String.append b c).
Proof.
  induction a as [|ch a IH].
  - now rewrite !append_nil.
  - now rewrite !append_cons, IH.
Qed.

(** *** How many chunks *)

(** An iteration closes at most one chunk. *)
Lemma body_joined n maxlength sep i param st :
  joined (body n maxlength sep i param st) = joined st \/
  exists c, body n maxlength sep i param st
            = mkLocals EmptyString 0 (joined st ++ [c]).
Proof.
  unfold body.
  destruct (currlen st + len param <? maxlength);
    destruct (i + 1 <? n); cbn [andb];
    try destruct (_ + len sep <? maxlength); cbn [joined]; eauto.
Qed.

(** The iteration of the last token always closes a chunk. *)
Lemma body_last n maxlength sep i param st :
  n <= i + 1 ->
  exists c, body n maxlength sep i param st
            = mkLocals EmptyString 0 (joined st ++ [c]).
Proof.
  intros Hlast. unfold body.
  destruct (Z.ltb_spec (i + 1) n) as [Hlt|_]; [lia|]. cbn [andb].
  destruct (currlen st + len param <? maxlength); eauto.
Qed.

Lemma loop_closes n maxlength sep rest : forall i st,
  rest <> [] ->
  n = i + Z.of_nat (length rest) ->
  buffer (loop n maxlength sep i rest st) = EmptyString /\
  (length (joined st) < length (joined (loop n maxlength sep i rest st))
   <= length (joined st) + length rest)%nat.
Proof.
  induction rest as [|param rest IH]; intros i st Hne Hn; [contradiction|].
  cbn [loop]. destruct rest as [|param2 rest].
  - cbn [loop]. destruct (body_last n maxlength sep i param st) as [c ->].
    + cbn [length] in Hn. lia.
    + cbn [buffer joined length]. rewrite length_app. cbn [length].
      clear IH. split; [reflexivity|lia].
  - destruct (IH (i + 1) (body n maxlength sep i param st)) as [Hbuf Hlen].
    + discriminate.
    + cbn [length] in Hn |- *. lia.
    + split; [exact Hbuf|]. clear IH. revert Hlen.
      destruct (body_joined n maxlength sep i param st) as [Heq|[c Heq]];
        rewrite Heq; cbn [joined length]; rewrite ?length_app;
        cbn [length]; lia.
Qed.

(** The buffer is empty when the loop ends, so the test on [buffer.Len()]
    after the loop never adds a chunk. *)
Lemma ChunkJoinStrings_joined (params : list string) (maxlength : Z)
    (sep : string) :
  ChunkJoinStrings params maxlength sep
  = joined (loop (Z.of_nat (length params)) maxlength sep 0 params
                 (mkLocals EmptyString 0 [])).
Proof.
  destruct params as [|param rest]; [reflexivity|].
  destruct (loop_closes (Z.of_nat (length (param :: rest))) maxlength sep
              (param :: rest) 0 (mkLocals EmptyString 0 []))
    as [Hbuf _]; [discriminate|lia|].
  unfold ChunkJoinStrings. cbv zeta. now rewrite Hbuf.
Qed.

(** X1. The result never has more chunks than there are tokens, and it is
    empty exactly when there is no token. The iteration of the last token
    always closes a chunk, so the buffer is empty when the loop ends and the
    test on [buffer.Len()] after the loop never adds a chunk: the result is
    [joined] as the loop leaves it. *)
Theorem ChunkJoinStrings_chunk_count (params : list string) (maxlength : Z)
    (sep : string) :
  (length (ChunkJoinStrings params maxlength sep) <= length params)%nat /\
  (ChunkJoinStrings params maxlength sep = [] <-> params = []) /\
  ChunkJoinStrings params maxlength sep
  = joined (loop (Z.of_nat (length params)) maxlength sep 0 params
                 (mkLocals EmptyString 0 [])).
Proof.
  rewrite ChunkJoinStrings_joined.
  destruct params as [|param rest].
  - split; [reflexivity|]. split; [tauto|reflexivity].
  - destruct (loop_closes (Z.of_nat (length (param :: rest))) maxlength sep
                (param :: rest) 0 (mkLocals EmptyString 0 []))
      as [_ Hlen]; [discriminate|lia|].
    split; [cbn [joined length] in Hlen |- *; lia|].
    split; [|reflexivity].
    split; [intros Hnil; rewrite Hnil in Hlen; cbn [joined length] in Hlen; lia
           |discriminate].
Qed.

(** *** When everything fits in one chunk *)

Lemma counted_cons (p q : string) (r : list string) :
  counted (p :: q :: r) = len p + 1 + counted (q :: r).
Proof. reflexivity. Qed.

Lemma counted_nonneg (params : list string) : 0 <= counted params.
Proof.
  induction params as [|p [|q r] IH].
  - reflexivity.
  - apply len_nonneg.
  - rewrite counted_cons. pose proof (len_nonneg p). lia.
Qed.

Lemma concat_cons (sep p q : string) (r : list string) :
  String.concat sep (p :: q :: r)
  = String.append p (String.append sep (String.concat sep (q :: r))).
Proof. reflexivity. Qed.

Lemma loop_fits n maxlength sep rest : forall i b c js,
  rest <> [] ->
  n = i + Z.of_nat (length rest) ->
  c + counted rest < maxlength ->
  c + counted rest + len sep <= maxlength ->
  loop n maxlength sep i rest (mkLocals b c js)
  = mkLocals EmptyString 0 (js ++ [String.append b (String.concat sep rest)]).
Proof.
  induction rest as [|p [|q r] IH]; intros i b c js Hne Hn Hfit Hsep;
    [contradiction| |].
  - cbn [loop]. unfold body. cbn [buffer currlen joined counted] in *.
    rewrite (proj2 (Z.ltb_lt _ _) Hfit).
    destruct (Z.ltb_spec (i + 1) n) as [Hlt|_]; [cbn [length] in Hn; lia|].
    reflexivity.
  - rewrite counted_cons in Hfit, Hsep.
    pose proof (counted_nonneg (q :: r)) as Hrest.
    pose proof (len_nonneg p) as Hp. pose proof (len_nonneg sep) as Hs.
    change (loop n maxlength sep i (p :: q :: r) (mkLocals b c js))
      with (loop n maxlength sep (i + 1) (q :: r)
              (body n maxlength sep i p (mkLocals b c js))).
    assert (Hbody : body n maxlength sep i p (mkLocals b c js)
                    = mkLocals (String.append (String.append b p) sep)
                               (c + len p + 1) js).
    { unfold body. cbn [buffer currlen joined].
      rewrite (proj2 (Z.ltb_lt (c + len p) maxlength)) by lia.
      rewrite (proj2 (Z.ltb_lt (i + 1) n)) by (cbn [length] in Hn; lia).
      rewrite (proj2 (Z.ltb_lt (c + len p + len sep) maxlength)) by lia.
      reflexivity. }
    rewrite Hbody. rewrite IH.
    + rewrite concat_cons, !append_assoc. reflexivity.
    + discriminate.
    + cbn [length] in Hn |- *. lia.
    + lia.
    + lia.
Qed.

(** X2. When the tokens and the separators between them all fit, that is when
    the bytes of the tokens plus one per separator, plus the length of the
    separator (at least one), do not exceed [maxlength], the result is the one
    chunk that joins all tokens with the separator. *)
Theorem ChunkJoinStrings_all_fit (params : list string) (maxlength : Z)
    (sep : string) :
  params <> [] ->
  counted params + Z.max 1 (len sep) <= maxlength ->
  ChunkJoinStrings params maxlength sep = [String.concat sep params].
Proof.
  intros Hne Hfit. unfold ChunkJoinStrings.
  rewrite (loop_fits _ maxlength sep params 0 EmptyString 0 []);
    [reflexivity|assumption|lia|lia|lia].
Qed.

Lemma ChunkJoinStrings_all_fit_witness :
  ["a"; "bb"; "ccc"] <> [] /\
  counted ["a"; "bb"; "ccc"] + Z.max 1 (len ", ") <= 10 /\
  ChunkJoinStrings ["a"; "bb"; "ccc"] 10 ", " = ["a, bb, ccc"].
Proof.
  split; [discriminate|]. split; [vm_compute; discriminate|].
  apply (ChunkJoinStrings_all_fit ["a"; "bb"; "ccc"] 10 ", ");
    [discriminate|vm_compute; discriminate].
Defined.

Lemma len_concat_one (sep : string) (params : list string) :
  len sep = 1 -> len (String.concat sep params) = counted params.
Proof.
  intros Hsep. induction params as [|p [|q r] IH].
  - reflexivity.
  - reflexivity.
  - rewrite concat_cons, counted_cons, !len_append, IH. lia.
Qed.

(** X3. With a separator of one byte: when the join of all tokens is shorter
    than [maxlength], the result is exactly that join, as a single chunk. *)
Theorem ChunkJoinStrings_is_join (params : list string) (maxlength : Z)
    (sep : string) :
  len sep = 1 ->
  params <> [] ->
  len (String.concat sep params) < maxlength ->
  ChunkJoinStrings params maxlength sep = [String.concat sep params].
Proof.
  intros Hsep Hne Hfit. rewrite (len_concat_one sep params Hsep) in Hfit.
  unfold ChunkJoinStrings.
  rewrite (loop_fits _ maxlength sep params 0 EmptyString 0 []);
    [reflexivity|assumption|lia|lia|lia].
Qed.

Lemma ChunkJoinStrings_is_join_witness :
  len "," = 1 /\
  len (String.concat "," ["to"; "be"; "or"; "not"]) < 13 /\
  ChunkJoinStrings ["to"; "be"; "or"; "not"] 13 "," = ["to,be,or,not"].
Proof.
  split; [reflexivity|]. split; [vm_compute; reflexivity|].
  apply (ChunkJoinStrings_is_join ["to"; "be"; "or"; "not"] 13 ",");
    [reflexivity|discriminate|vm_compute; reflexivity].
Defined.

(** *** The bound on the length of a chunk *)

Lemma body_within_bound n maxlength sep i param st :
  len sep <= 1 -> 0 < maxlength ->
  within_bound maxlength st ->
  within_bound maxlength (body n maxlength sep i param st).
Proof.
  intros Hsep Hmax (Hcur & Hbuf & Hall). unfold body, within_bound.
  pose proof (len_nonneg param) as Hp. pose proof (len_nonneg sep) as Hs.
  destruct (Z.ltb_spec (currlen st + len param) maxlength) as [Hfit|Hno];
    cbv beta iota zeta; destruct (i + 1 <? n); cbn [andb];
    repeat (match goal with
            | |- context [if ?a <? ?b then _ else _] =>
                destruct (Z.ltb_spec a b)
            end; cbv beta iota zeta);
    cbn [buffer currlen joined]; rewrite ?Forall_app;
    repeat match goal with
           | |- _ /\ _ => split
           | |- Forall _ (joined st) => assumption
           | |- Forall _ [] => constructor
           | |- Forall _ (_ :: _) => constructor
           end;
    rewrite ?len_append; change (len EmptyString) with 0; lia.
Qed.

Lemma loop_within_bound n maxlength sep rest : forall i st,
  len sep <= 1 -> 0 < maxlength ->
  within_bound maxlength st ->
  within_bound maxlength (loop n maxlength sep i rest st).
Proof.
  induction rest as [|param rest IH]; intros i st Hsep Hmax Hinv; [assumption|].
  cbn [loop]. apply IH; [assumption..|]. now apply body_within_bound.
Qed.

(** X4. With a separator of at most one byte and a positive [maxlength],
    every chunk of the result is strictly shorter than [maxlength]. *)
Theorem ChunkJoinStrings_chunks_bounded (params : list string)
    (maxlength : Z) (sep : string) :
  len sep <= 1 -> 0 < maxlength ->
  Forall (fun c => len c < maxlength) (ChunkJoinStrings params maxlength sep).
Proof.
  intros Hsep Hmax.
  rewrite ChunkJoinStrings_joined.
  apply (loop_within_bound _ maxlength sep params 0 (mkLocals EmptyString 0 []));
    [assumption..|].
  unfold within_bound. cbn [buffer currlen joined].
  change (len EmptyString) with 0. split; [lia|]. split; [lia|constructor].
Qed.

Lemma ChunkJoinStrings_chunks_bounded_witness :
  (len "," <= 1 /\ 0 < 6) /\
  Forall (fun c => len c < 6)
         (ChunkJoinStrings ["ab"; "cd"; "efghijk"; "l"; "mn"] 6 ",").
Proof.
  split; [split; [vm_compute; discriminate|lia]|].
  apply (ChunkJoinStrings_chunks_bounded ["ab"; "cd"; "efghijk"; "l"; "mn"] 6 ",");
    [vm_compute; discriminate|lia].
Defined.

End ChunkerMore.

(* ===================================================================== *)
(** ** More on the string map                                             *)
(* ===================================================================== *)

Section MapMore.
Import ConcurrentMap.

(** Unfold the methods and split on whether [k] is in [m]. *)
Ltac on_key m k :=
  unfold Add, Del, Get, Set_, Exists, Length;
  let E := fresh "E" in
  destruct (data m !! k) as [?cur|] eqn:E;
  cbn [fst snd data];
  rewrite ?lookup_insert_eq, ?lookup_delete_eq, ?E;
  cbn [fst snd data kind].

Lemma mkMap_data (m : ConcurrentMapString) : mkMap (data m) = m.
Proof. now destruct m. Qed.

(** X5. [Exists] says whether [Get] would succeed. It is false on a new map,
    true after [Add] whether or not [Add] succeeded, false after [Del]
    whether or not [Del] succeeded, and [Set] does not change it. *)
Theorem Exists_tracks_presence (m : ConcurrentMapString) (k v : string) :
  (Exists k m = true <-> snd (Get k m) = None) /\
  (Exists k m = false <-> kind (snd (Get k m)) = Some NotFound) /\
  Exists k NewConcurrentMapString = false /\
  Exists k (snd (Add k v m)) = true /\
  Exists k (snd (Del k m)) = false /\
  Exists k (snd (Set_ k v m)) = Exists k m.
Proof.
  split; [|split; [|split; [|split; [|split]]]].
  - on_key m k; split; congruence.
  - on_key m k; split; try congruence; reflexivity.
  - reflexivity.
  - on_key m k; reflexivity.
  - on_key m k; reflexivity.
  - on_key m k; reflexivity.
Qed.

Lemma size_present (d : gmap string string) (k : string) :
  is_Some (d !! k) -> size d = S (size (delete k d)).
Proof.
  intros [x Hx]. rewrite <- (insert_delete_id d k x Hx) at 1.
  apply map_size_insert_None, lookup_delete_eq.
Qed.

(** X6. [Length] counts the keys: it is 0 exactly on the empty map; an [Add]
    that succeeds adds one, a [Del] that succeeds removes one, and [Set] and
    every call that returns an error leave it as it was. *)
Theorem Length_counts_keys (m : ConcurrentMapString) (k v : string) :
  (Length m = 0 <-> m = NewConcurrentMapString) /\
  Length (snd (Add k v m)) = Length m + (if Exists k m then 0 else 1) /\
  Length (snd (Del k m)) = Length m - (if Exists k m then 1 else 0) /\
  Length (snd (Set_ k v m)) = Length m.
Proof.
  split; [|split; [|split]].
  - unfold Length, NewConcurrentMapString. split.
    + intros Hz. destruct m as [d]. cbn [data] in Hz. f_equal.
      apply map_size_empty_inv. lia.
    + intros ->. cbn [data]. now rewrite map_size_empty.
  - on_key m k; [lia|].
    rewrite map_size_insert_None by assumption. lia.
  - on_key m k; [|lia].
    rewrite (size_present (data m) k) by eauto. lia.
  - on_key m k; [|reflexivity].
    rewrite map_size_insert_Some by eauto. reflexivity.
Qed.

(** X7. A call on the key [k] does not touch another key [k']: [Get] and
    [Exists] on [k'] answer the same after [Add], [Set] or [Del] on [k]. *)
Theorem other_keys_untouched (m : ConcurrentMapString) (k k' v : string) :
  k <> k' ->
  (Get k' (snd (Add k v m)) = Get k' m /\
   Exists k' (snd (Add k v m)) = Exists k' m) /\
  (Get k' (snd (Set_ k v m)) = Get k' m /\
   Exists k' (snd (Set_ k v m)) = Exists k' m) /\
  (Get k' (snd (Del k m)) = Get k' m /\
   Exists k' (snd (Del k m)) = Exists k' m).
Proof.
  intros Hne.
  repeat split; unfold Add, Set_, Del, Get, Exists;
    destruct (data m !! k); cbn [fst snd data];
    rewrite ?lookup_insert_ne, ?lookup_delete_ne by assumption; reflexivity.
Qed.

Lemma other_keys_untouched_witness :
  let m := mkMap {[ "a" := "1"; "b" := "2" ]} in
  "a" <> "b" /\
  Get "b" (snd (Del "a" m)) = ("2", None) /\
  Get "b" (snd (Set_ "a" "9" m)) = ("2", None).
Proof.
  cbv zeta. split; [discriminate|].
  pose proof (other_keys_untouched (mkMap {[ "a" := "1"; "b" := "2" ]})
                "a" "b" "9" ltac:(discriminate))
    as (_ & (Hset & _) & (Hdel & _)).
  split; [rewrite Hdel|rewrite Hset]; vm_compute; reflexivity.
Defined.

(** X8. Round trips. On a map without [k], [Add k v] followed by [Del k]
    gives the map back. On a map where [k] has the value [cur], [Del k]
    followed by [Add k cur] gives the map back, and so does [Set k v]
    followed by [Set k cur]. *)
Theorem map_round_trips (m : ConcurrentMapString) (k v : string) :
  (data m !! k = None -> Del k (snd (Add k v m)) = (None, m)) /\
  (forall cur, data m !! k = Some cur ->
     Add k cur (snd (Del k m)) = (None, m) /\
     Set_ k cur (snd (Set_ k v m)) = (None, m)).
Proof.
  split.
  - intros Hout. unfold Add, Del. rewrite Hout. cbn [fst snd data].
    rewrite lookup_insert_eq, delete_insert_id by assumption.
    now rewrite mkMap_data.
  - intros cur Hin. unfold Add, Del, Set_. rewrite Hin. cbn [fst snd data].
    rewrite lookup_delete_eq, lookup_insert_eq.
    rewrite insert_delete_id by assumption.
    rewrite insert_insert_eq, insert_id by assumption.
    now rewrite mkMap_data.
Qed.

Lemma map_round_trips_witness :
  Del "k" (snd (Add "k" "v" (mkMap {[ "a" := "1" ]})))
  = (None, mkMap {[ "a" := "1" ]}) /\
  Add "a" "1" (snd (Del "a" (mkMap {[ "a" := "1" ]})))
  = (None, mkMap {[ "a" := "1" ]}).
Proof.
  split.
  - apply (map_round_trips (mkMap {[ "a" := "1" ]}) "k" "v").
    vm_compute. reflexivity.
  - apply (proj2 (map_round_trips (mkMap {[ "a" := "1" ]}) "a" "v") "1").
    vm_compute. reflexivity.
Defined.

(** X9. [Set] overwrites: after a [Set k v] that succeeds, [Get k] returns
    [v]; and of two [Set] on the same key the second one decides, the map is
    the one a single [Set] with the second value gives. *)
Theorem Set_overwrites (m : ConcurrentMapString) (k v1 v2 : string) :
  (fst (Set_ k v1 m) = None -> Get k (snd (Set_ k v1 m)) = (v1, None)) /\
  Set_ k v2 (snd (Set_ k v1 m)) = Set_ k v2 m.
Proof.
  split.
  - on_key m k; [reflexivity|discriminate].
  - on_key m k; [|reflexivity]. now rewrite insert_insert_eq.
Qed.

Lemma Set_overwrites_witness :
  Get "a" (snd (Set_ "a" "2" (mkMap {[ "a" := "1" ]}))) = ("2", None).
Proof.
  apply (Set_overwrites (mkMap {[ "a" := "1" ]}) "a" "2" "2").
  vm_compute. reflexivity.
Defined.

(** *** [ForEach] *)

Lemma ForEach_calls_count (order : list (string * string)) : forall n : Z,
  ForEach_calls (fun _ _ acc => acc + 1) order n = n + Z.of_nat (length order).
Proof.
  unfold ForEach_calls.
  induction order as [|kv order IH]; intros n; cbn [fold_left length].
  - lia.
  - rewrite IH. lia.
Qed.

Lemma ForEach_calls_keys (order : list (string * string)) :
  forall ks : list string,
  ForEach_calls (fun k _ acc => k :: acc) order ks = rev order.*1 ++ ks.
Proof.
  unfold ForEach_calls.
  induction order as [|kv order IH]; intros ks; cbn [fold_left]; [reflexivity|].
  rewrite IH, fmap_cons. cbn [rev]. now rewrite <- app_assoc.
Qed.

Lemma ForEach_calls_Add (order : list (string * string)) :
  forall c : ConcurrentMapString,
  ForEach_calls (fun k v acc => snd (Add k v acc)) order c
  = snd (AddAll order c).
Proof.
  unfold ForEach_calls.
  induction order as [|[k v] order IH]; intros c; cbn [fold_left AddAll fst snd].
  - reflexivity.
  - rewrite IH. destruct (Add k v c) as [e c1]. cbn [snd].
    now destruct (AddAll order c1).
Qed.

Lemma order_keys (m : ConcurrentMapString) (order : list (string * string)) :
  order ≡ₚ map_to_list (data m) ->
  NoDup order.*1 /\
  (forall k v, (k, v) ∈ order <-> data m !! k = Some v) /\
  (forall k, k ∈ order.*1 <-> is_Some (data m !! k)).
Proof.
  intros Hperm.
  assert (Hin : forall k v, (k, v) ∈ order <-> data m !! k = Some v).
  { intros k v. rewrite Hperm. apply elem_of_map_to_list. }
  split; [|split; [exact Hin|]].
  - rewrite Hperm. apply NoDup_fst_map_to_list.
  - intros k. rewrite list_elem_of_fmap. split.
    + intros ([k0 v] & -> & Hkv). cbn [fst]. exists v. now apply Hin.
    + intros [v Hv]. exists (k, v). split; [reflexivity|now apply Hin].
Qed.

(** X10. [ForEach] calls the function exactly once for every entry of the
    map, whatever order the iteration takes: a callback that counts ends at
    [Length]; a callback that collects the keys collects each key that
    [Exists] once and nothing else; a callback that adds each entry to a new
    map ends with a copy of the map. A run exists for every map. *)
Theorem ForEach_visits_each_entry_once (m : ConcurrentMapString) :
  (exists n : Z, ForEach m (fun _ _ acc => acc + 1) 0 n) /\
  (forall n : Z, ForEach m (fun _ _ acc => acc + 1) 0 n -> n = Length m) /\
  (forall keys : list string,
     ForEach m (fun k _ acc => k :: acc) [] keys ->
     NoDup keys /\ forall k, k ∈ keys <-> Exists k m = true) /\
  (forall c : ConcurrentMapString,
     ForEach m (fun k v acc => snd (Add k v acc)) NewConcurrentMapString c ->
     c = m).
Proof.
  split; [|split; [|split]].
  - eexists. exists (map_to_list (data m)). split; reflexivity.
  - intros n (order & Hperm & ->). rewrite ForEach_calls_count.
    unfold Length. rewrite (Permutation_length Hperm), length_map_to_list. lia.
  - intros keys (order & Hperm & ->). rewrite ForEach_calls_keys, app_nil_r.
    destruct (order_keys m order Hperm) as (Hnd & _ & Hkeys).
    assert (Hrev : rev order.*1 ≡ₚ order.*1)
      by (symmetry; apply Permutation_rev).
    split.
    + now rewrite Hrev.
    + intros k. rewrite Hrev, Hkeys. unfold Exists.
      destruct (data m !! k); split; intros H;
        first [reflexivity|discriminate|solve [eauto]
              |destruct H as [x Hx]; discriminate Hx].
  - intros c (order & Hperm & ->). rewrite ForEach_calls_Add.
    destruct (order_keys m order Hperm) as (Hnd & Hin & Hkeys).
    destruct (AddAll_distinct order NewConcurrentMapString Hnd)
      as (_ & _ & Hadded & Hother); [intros k _; apply lookup_empty|].
    destruct (snd (AddAll order NewConcurrentMapString)) as [d].
    destruct m as [dm]. cbn [data] in *. f_equal. apply map_eq. intros k.
    destruct (dm !! k) as [v|] eqn:Hk.
    + apply Hadded. now apply Hin.
    + rewrite Hother; [apply lookup_empty|].
      rewrite Hkeys, Hk. now intros [x Hx].
Qed.

(** X11. Calls of [Add] with pairwise distinct keys that the map does not
    hold, run one after the other in any order: every call returns [nil], the
    map has as many keys more as there were calls, and the map at the end
    does not depend on the order. *)
Theorem Add_distinct_keys_any_order (kvs kvs' : list (string * string))
    (m : ConcurrentMapString) :
  kvs ≡ₚ kvs' ->
  NoDup kvs.*1 ->
  (forall k, k ∈ kvs.*1 -> data m !! k = None) ->
  fst (AddAll kvs' m) = repeat None (length kvs) /\
  Length (snd (AddAll kvs' m)) = Length m + Z.of_nat (length kvs) /\
  (forall k v, (k, v) ∈ kvs -> Get k (snd (AddAll kvs' m)) = (v, None)) /\
  snd (AddAll kvs' m) = snd (AddAll kvs m).
Proof.
  intros Hperm Hnd Hout.
  assert (Hperm1 : kvs.*1 ≡ₚ kvs'.*1) by now apply fmap_Permutation.
  destruct (AddAll_any_order kvs kvs' m Hperm Hnd Hout) as (Hsame & He & Hlen).
  destruct (AddAll_distinct kvs' m) as (_ & _ & Hin & _).
  { now rewrite <- Hperm1. }
  { intros k Hk. apply Hout. now rewrite Hperm1. }
  split; [exact He|]. split; [exact Hlen|]. split; [|exact Hsame].
  intros k v Hkv. unfold Get. rewrite (Hin k v); [reflexivity|].
  now rewrite <- Hperm.
Qed.

Lemma Add_distinct_keys_any_order_witness :
  let m := mkMap {[ "z" := "0" ]} in
  Length (snd (AddAll [("b", "2"); ("a", "1")] m)) = 3 /\
  snd (AddAll [("b", "2"); ("a", "1")] m)
  = snd (AddAll [("a", "1"); ("b", "2")] m).
Proof.
  cbv zeta.
  assert (Hperm : [("a", "1"); ("b", "2")] ≡ₚ [("b", "2"); ("a", "1")])
    by apply perm_swap.
  assert (Hnd : NoDup [("a", "1"); ("b", "2")].*1).
  { apply (bool_decide_unpack _). vm_compute. exact I. }
  assert (Hout : forall k, k ∈ [("a", "1"); ("b", "2")].*1 ->
                 data (mkMap {[ "z" := "0" ]}) !! k = None).
  { intros k Hk. cbn in Hk.
    apply elem_of_cons in Hk as [->|Hk]; [vm_compute; reflexivity|].
    apply elem_of_cons in Hk as [->|Hk]; [vm_compute; reflexivity|].
    inversion Hk. }
  pose proof (Add_distinct_keys_any_order _ _ (mkMap {[ "z" := "0" ]})
                Hperm Hnd Hout) as (_ & Hlen & _ & Hsame).
  split; [exact Hlen|exact Hsame].
Defined.

End MapMore.

(* ===================================================================== *)
(** ** More on the buffer pool                                            *)
(* ===================================================================== *)

Section PoolMore.
Import Pool.

(** *** [Warmup] *)

Lemma Warmup_loop_fills n : forall w,
  within_capacity w ->
  let room := (capacity (Buffers (pool w)) - length (queue (Buffers (pool w))))%nat in
  let w' := Warmup_loop n w in
  queue (Buffers (pool w'))
  = queue (Buffers (pool w)) ++ seq (next (mem w)) (Nat.min n room) /\
  capacity (Buffers (pool w')) = capacity (Buffers (pool w)) /\
  next (mem w') = (next (mem w) + Nat.min n (S room))%nat /\
  (forall p : nat, (p < next (mem w))%nat ->
     store (mem w') !! p = store (mem w) !! p) /\
  (forall p : nat, (next (mem w) <= p < next (mem w'))%nat ->
     store (mem w') !! p = Some EmptyString).
Proof.
  induction n as [|n IH]; intros w Hcap; cbv zeta.
  - cbn [Warmup_loop Nat.min seq]. rewrite app_nil_r, Nat.add_0_r.
    repeat split; try reflexivity. intros p Hp. lia.
  - cbn [Warmup_loop]. unfold alloc.
    destruct (try_send (Buffers (pool w)) (next (mem w))) as [c|] eqn:Hsend.
    + apply try_send_Some in Hsend as (Hlt & Hq & Hc).
      set (w1 := mkWorld (mkMemory (<[next (mem w) := EmptyString]> (store (mem w)))
                                   (S (next (mem w)))) (mkPool c)).
      destruct (IH w1) as (IHq & IHc & IHn & IHold & IHnew).
      { unfold within_capacity. cbn. rewrite Hq, Hc, length_app. cbn. lia. }
      cbn [w1 mem pool Buffers next store] in IHq, IHc, IHn, IHold, IHnew.
      rewrite Hq, Hc, length_app in *. cbn [length] in *.
      split; [|split; [exact IHc|split; [|split]]].
      * rewrite IHq, <- app_assoc. f_equal. cbn [app].
        replace (Nat.min (S n) (capacity (Buffers (pool w))
                                - length (queue (Buffers (pool w)))))
          with (S (Nat.min n (capacity (Buffers (pool w))
                              - (length (queue (Buffers (pool w))) + 1))))
          by lia.
        reflexivity.
      * rewrite IHn. lia.
      * intros p Hp. rewrite IHold by lia. apply lookup_insert_ne. lia.
      * intros p Hp. destruct (decide (p = next (mem w))) as [->|Hne].
        -- rewrite IHold by lia. apply lookup_insert_eq.
        -- apply IHnew. lia.
    + apply try_send_None in Hsend. cbn [mem pool next store].
      replace (Nat.min (S n) (capacity (Buffers (pool w))
                              - length (queue (Buffers (pool w))))) with 0%nat
        by lia.
      cbn [seq]. rewrite app_nil_r.
      split; [reflexivity|]. split; [reflexivity|]. split; [lia|]. split.
      * intros p Hp. apply lookup_insert_ne. lia.
      * intros p Hp. assert (p = next (mem w)) as -> by lia.
        apply lookup_insert_eq.
Qed.

Lemma Warmup_queue_and_buffers (num length_ : Z) (w : World) :
  within_capacity w ->
  queue (Buffers (pool (Warmup num length_ w)))
  = queue (Buffers (pool w))
    ++ seq (next (mem w))
           (Nat.min (Z.to_nat num)
                    (capacity (Buffers (pool w))
                     - length (queue (Buffers (pool w))))) /\
  (forall p : nat,
     In p (seq (next (mem w))
               (Nat.min (Z.to_nat num)
                        (capacity (Buffers (pool w))
                         - length (queue (Buffers (pool w)))))) ->
     store (mem (Warmup num length_ w)) !! p = Some EmptyString).
Proof.
  intros Hcap. unfold Warmup.
  pose proof (Warmup_loop_fills (Z.to_nat num) w Hcap) as Hfill.
  cbv zeta in Hfill. destruct Hfill as (Hq & _ & Hn & _ & Hnew).
  split; [exact Hq|].
  intros p Hp. apply in_seq in Hp. apply Hnew. lia.
Qed.

(** X12. [Warmup(num, length)] stores as many new buffers as it was asked
    for, or as many as the pool has room for if that is fewer: it fills the
    pool up to its capacity, not one below it. The stored buffers are new and
    empty, they are queued after those the pool held, in the order of their
    allocation, and no buffer allocated before is changed. With [num <= 0]
    nothing is stored. *)
Theorem Warmup_fills_the_pool (num length_ : Z) (w : World) :
  within_capacity w ->
  let stored := length (queue (Buffers (pool w))) in
  let room := (capacity (Buffers (pool w)) - stored)%nat in
  let w' := Warmup num length_ w in
  queue (Buffers (pool w'))
  = queue (Buffers (pool w)) ++ seq (next (mem w)) (Nat.min (Z.to_nat num) room) /\
  length (queue (Buffers (pool w')))
  = Nat.min (capacity (Buffers (pool w))) (stored + Z.to_nat num) /\
  capacity (Buffers (pool w')) = capacity (Buffers (pool w)) /\
  (forall p : nat, In p (seq (next (mem w)) (Nat.min (Z.to_nat num) room)) ->
     store (mem w') !! p = Some EmptyString) /\
  (forall p : nat, (p < next (mem w))%nat ->
     store (mem w') !! p = store (mem w) !! p).
Proof.
  intros Hcap. cbv zeta. unfold Warmup.
  pose proof (Warmup_loop_fills (Z.to_nat num) w Hcap) as Hfill.
  cbv zeta in Hfill. destruct Hfill as (Hq & Hc & Hn & Hold & Hnew).
  unfold within_capacity in Hcap.
  split; [exact Hq|]. split; [|split; [exact Hc|split; [|exact Hold]]].
  - rewrite Hq, length_app, length_seq. lia.
  - intros p Hp. apply in_seq in Hp. apply Hnew. lia.
Qed.

Lemma Warmup_fills_the_pool_witness :
  let w := mkWorld (mkMemory {[ 0%nat := "kept" ]} 1) (mkPool (mkChan [0%nat] 3)) in
  within_capacity w /\
  queue (Buffers (pool (Warmup 5 0 w))) = [0%nat; 1%nat; 2%nat] /\
  store (mem (Warmup 5 0 w)) !! 0%nat = Some "kept".
Proof.
  cbv zeta.
  assert (Hcap : within_capacity
            (mkWorld (mkMemory {[ 0%nat := "kept" ]} 1) (mkPool (mkChan [0%nat] 3))))
    by (unfold within_capacity; cbn; lia).
  split; [exact Hcap|].
  pose proof (Warmup_fills_the_pool 5 0 _ Hcap) as Hfill. cbv zeta in Hfill.
  destruct Hfill as (Hq & _ & _ & _ & Hold).
  split; [exact Hq|]. rewrite Hold by (cbn; lia). vm_compute. reflexivity.
Defined.

(** *** The order in which buffers come out *)

Lemma NewN_drains n : forall w,
  (n <= length (queue (Buffers (pool w))))%nat ->
  NewN n w
  = (take n (queue (Buffers (pool w))),
     mkWorld (mem w)
             (mkPool (mkChan (drop n (queue (Buffers (pool w))))
                             (capacity (Buffers (pool w)))))).
Proof.
  induction n as [|n IH]; intros w Hn.
  - cbn [NewN take drop]. now destruct w as [m [[q c]]].
  - cbn [NewN]. unfold New, try_recv.
    destruct (queue (Buffers (pool w))) as [|p q] eqn:Hq;
      [cbn [length] in Hn; lia|].
    rewrite IH by (cbn in Hn |- *; lia). reflexivity.
Qed.

(** X13. The pool is a queue: on a pool that stores at least [n] buffers, [n]
    calls of [New] return the [n] buffers stored first, in the order in which
    they were stored, leave the others stored in their order, and allocate
    nothing (the memory is as it was, so the buffers come out with the content
    they have). *)
Theorem New_takes_oldest_first (n : nat) (w : World) :
  (n <= length (queue (Buffers (pool w))))%nat ->
  fst (NewN n w) = take n (queue (Buffers (pool w))) /\
  queue (Buffers (pool (snd (NewN n w)))) = drop n (queue (Buffers (pool w))) /\
  capacity (Buffers (pool (snd (NewN n w)))) = capacity (Buffers (pool w)) /\
  mem (snd (NewN n w)) = mem w.
Proof.
  intros Hn. rewrite (NewN_drains n w Hn). repeat split.
Qed.

Lemma New_takes_oldest_first_witness :
  let w := mkWorld (mkMemory {[ 0%nat := ""; 1%nat := ""; 2%nat := "" ]} 3)
                   (mkPool (mkChan [2%nat; 0%nat; 1%nat] 4)) in
  fst (NewN 2 w) = [2%nat; 0%nat] /\
  queue (Buffers (pool (snd (NewN 2 w)))) = [1%nat].
Proof.
  cbv zeta.
  pose proof (New_takes_oldest_first 2
    (mkWorld (mkMemory {[ 0%nat := ""; 1%nat := ""; 2%nat := "" ]} 3)
             (mkPool (mkChan [2%nat; 0%nat; 1%nat] 4)))
    ltac:(cbn; lia)) as (Hfst & Hq & _).
  split; [exact Hfst|exact Hq].
Defined.

Lemma Recycle_with_room buf w :
  (length (queue (Buffers (pool w))) < capacity (Buffers (pool w)))%nat ->
  Recycle buf w
  = mkWorld (Reset buf (mem w))
            (mkPool (mkChan (queue (Buffers (pool w)) ++ [buf])
                            (capacity (Buffers (pool w))))).
Proof.
  intros Hroom. unfold Recycle, try_send.
  now rewrite (proj2 (Nat.ltb_lt _ _) Hroom).
Qed.

(** X14. A recycled buffer is reused, after the buffers stored before it:
    when the pool has room, after [Recycle buf] the calls of [New] return the
    buffers the pool held, in their order, and then [buf]; none of these calls
    allocates, the memory stays the one [Recycle] left, with [buf] reset. On
    an empty pool with room the next [New] returns [buf] itself. *)
Theorem Recycle_then_New (buf : nat) (w : World) :
  (length (queue (Buffers (pool w))) < capacity (Buffers (pool w)))%nat ->
  let w' := Recycle buf w in
  let k := S (length (queue (Buffers (pool w)))) in
  fst (NewN k w') = queue (Buffers (pool w)) ++ [buf] /\
  queue (Buffers (pool (snd (NewN k w')))) = [] /\
  mem (snd (NewN k w')) = Reset buf (mem w) /\
  (queue (Buffers (pool w)) = [] -> fst (New w') = buf).
Proof.
  intros Hroom. cbv zeta. rewrite (Recycle_with_room buf w Hroom).
  set (w' := mkWorld _ _).
  assert (Hlen : length (queue (Buffers (pool w')))
                 = S (length (queue (Buffers (pool w))))).
  { cbn. rewrite length_app. cbn. lia. }
  rewrite <- Hlen, (NewN_drains _ w' (Nat.le_refl _)).
  cbn [fst snd mem pool Buffers queue]. rewrite firstn_all, drop_all.
  repeat split. intros Hempty. unfold New, try_recv. cbn. now rewrite Hempty.
Qed.

Lemma Recycle_then_New_witness :
  let w := mkWorld (mkMemory {[ 0%nat := ""; 1%nat := "used" ]} 2)
                   (mkPool (mkChan [0%nat] 2)) in
  fst (NewN 2 (Recycle 1 w)) = [0%nat; 1%nat] /\
  store (mem (snd (NewN 2 (Recycle 1 w)))) !! 1%nat = Some EmptyString.
Proof.
  cbv zeta.
  pose proof (Recycle_then_New 1
    (mkWorld (mkMemory {[ 0%nat := ""; 1%nat := "used" ]} 2)
             (mkPool (mkChan [0%nat] 2)))
    ltac:(cbn; lia)) as Hre.
  cbv zeta in Hre. destruct Hre as (Hfst & _ & Hmem & _).
  split; [exact Hfst|].
  transitivity (store (Reset 1
       (mem (mkWorld (mkMemory {[ 0%nat := ""; 1%nat := "used" ]} 2)
                     (mkPool (mkChan [0%nat] 2))))) !! 1%nat).
  - exact (f_equal (fun m => store m !! 1%nat) Hmem).
  - vm_compute. reflexivity.
Defined.

(** X15. [Recycle] does not look at what the pool holds: a buffer recycled
    twice, while the pool has room for two more, is stored twice, and two
    later calls of [New] hand out the same address. *)
Theorem Recycle_twice_stores_twice (buf : nat) (w : World) :
  (length (queue (Buffers (pool w))) + 2 <= capacity (Buffers (pool w)))%nat ->
  let w' := Recycle buf (Recycle buf w) in
  queue (Buffers (pool w')) = queue (Buffers (pool w)) ++ [buf; buf] /\
  (queue (Buffers (pool w)) = [] -> fst (NewN 2 w') = [buf; buf]).
Proof.
  intros Hroom. cbv zeta.
  rewrite (Recycle_with_room buf w) by lia.
  rewrite Recycle_with_room by (cbn; rewrite length_app; cbn; lia).
  cbn [pool Buffers queue capacity mem]. rewrite <- app_assoc. cbn [app].
  split; [reflexivity|]. intros Hempty. rewrite Hempty. reflexivity.
Qed.

Lemma Recycle_twice_stores_twice_witness :
  let w := mkWorld (mkMemory {[ 0%nat := "x" ]} 1) (mkPool (mkChan [] 2)) in
  queue (Buffers (pool (Recycle 0 (Recycle 0 w)))) = [0%nat; 0%nat] /\
  fst (NewN 2 (Recycle 0 (Recycle 0 w))) = [0%nat; 0%nat].
Proof.
  cbv zeta.
  pose proof (Recycle_twice_stores_twice 0
    (mkWorld (mkMemory {[ 0%nat := "x" ]} 1) (mkPool (mkChan [] 2)))
    ltac:(cbn; lia)) as Htw.
  cbv zeta in Htw. destruct Htw as (Hq & Hnew).
  split; [exact Hq|apply Hnew; reflexivity].
Defined.

(** X16. Warming an empty pool and taking the buffers back: after
    [Warmup(num, length)] on a pool that stores nothing, as many calls of
    [New] as buffers were stored (the smaller of [num] and the capacity)
    return that many different buffers, all empty, and allocate nothing: the
    memory after the calls is the memory [Warmup] left, and the pool is empty
    again. *)
Theorem Warmup_then_New (num length_ : Z) (w : World) :
  queue (Buffers (pool w)) = [] ->
  let k := Nat.min (Z.to_nat num) (capacity (Buffers (pool w))) in
  let w1 := Warmup num length_ w in
  let taken := fst (NewN k w1) in
  let w2 := snd (NewN k w1) in
  taken = seq (next (mem w)) k /\
  length taken = k /\
  NoDup taken /\
  Forall (fun buf => store (mem w2) !! buf = Some EmptyString) taken /\
  mem w2 = mem w1 /\
  queue (Buffers (pool w2)) = [].
Proof.
  intros Hempty. cbv zeta.
  assert (Hcap : within_capacity w).
  { unfold within_capacity. rewrite Hempty. cbn. lia. }
  pose proof (Warmup_queue_and_buffers num length_ w Hcap) as Hfill.
  rewrite Hempty in Hfill. cbn [length app] in Hfill.
  rewrite Nat.sub_0_r in Hfill. destruct Hfill as (Hq & Hnew).
  set (k := Nat.min (Z.to_nat num) (capacity (Buffers (pool w)))) in *.
  set (w1 := Warmup num length_ w) in *.
  assert (Hk : length (queue (Buffers (pool w1))) = k)
    by (rewrite Hq; apply length_seq).
  rewrite (NewN_drains k w1) by lia.
  cbn [fst snd mem pool Buffers queue].
  rewrite take_ge, drop_ge by lia. rewrite Hq.
  split; [reflexivity|]. split; [apply length_seq|].
  split; [apply NoDup_ListNoDup, seq_NoDup|]. split; [|split; reflexivity].
  apply Forall_forall. intros p Hp. apply Hnew. now apply list_elem_of_In.
Qed.

Lemma Warmup_then_New_witness :
  let w := mkWorld (mkMemory {[ 0%nat := "busy" ]} 1) (mkPool (mkChan [] 10)) in
  queue (Buffers (pool w)) = [] /\
  fst (NewN 5 (Warmup 5 0 w)) = [1%nat; 2%nat; 3%nat; 4%nat; 5%nat] /\
  mem (snd (NewN 5 (Warmup 5 0 w))) = mem (Warmup 5 0 w).
Proof.
  cbv zeta. split; [reflexivity|].
  pose proof (Warmup_then_New 5 0
    (mkWorld (mkMemory {[ 0%nat := "busy" ]} 1) (mkPool (mkChan [] 10)))
    eq_refl) as Hwarm.
  cbv zeta in Hwarm. destruct Hwarm as (Htaken & _ & _ & _ & Hmem & _).
  split; [exact Htaken|exact Hmem].
Defined.

End PoolMore.
